(** * GitWebhookProxy: the proxy package (pkg/proxy/proxy.go)

    A shallow embedding of the proxy's request pipeline: the path
    allow-list, the constructor, the redirection to the upstream and the
    orchestration of one inbound request.

    Go strings are byte sequences, modelled as [string] (a list of
    [ascii], one per byte).  Go [int] and [rune] values are modelled as
    [Z].  A Go result pair [(v, err)] is modelled as the sum [result],
    following the convention that exactly one component is non-nil. *)

From Stdlib Require Import ZArith String Ascii List Lia Bool.
From stdpp Require Import gmap strings list.

Open Scope string_scope.
Open Scope list_scope.
Open Scope Z_scope.

(** ** Go strings: length, indexing, slicing *)

Definition byte_val (c : ascii) : Z := Z.of_N (N_of_ascii c).

(** [len(s)] *)
Definition len (s : string) : Z := Z.of_nat (String.length s).

(** [s[i]], for [0 <= i < len(s)] (Go panics outside that range; every
    use below is guarded as in the Go code). *)
Definition idx (s : string) (i : Z) : Z :=
  match String.get (Z.to_nat i) s with
  | Some c => byte_val c
  | None => 0
  end.

(** [s[lo:hi]] *)
Definition slice (s : string) (lo hi : Z) : string :=
  substring (Z.to_nat lo) (Z.to_nat (hi - lo)) s.

(** The line feed written by [fmt.Fprintln] and by the ["\n"] escape. *)
Definition LF : string := String "010"%char EmptyString.

(** ** unicode/utf8 *)

Module utf8.

Definition RuneError : Z := 0xFFFD.
Definition RuneSelf : Z := 0x80.
Definition UTFMax : Z := 4.

Definition maskx : Z := 0x3F.
Definition mask2 : Z := 0x1F.
Definition mask3 : Z := 0x0F.
Definition mask4 : Z := 0x07.

Definition locb : Z := 0x80.
Definition hicb : Z := 0xBF.

Definition xx : Z := 0xF1. (* invalid: size 1 *)
Definition as_ : Z := 0xF0. (* ASCII: size 1 *)
Definition s1 : Z := 0x02. (* accept 0, size 2 *)
Definition s2 : Z := 0x13. (* accept 1, size 3 *)
Definition s3 : Z := 0x03. (* accept 0, size 3 *)
Definition s4 : Z := 0x23. (* accept 2, size 3 *)
Definition s5 : Z := 0x34. (* accept 3, size 4 *)
Definition s6 : Z := 0x04. (* accept 0, size 4 *)
Definition s7 : Z := 0x44. (* accept 4, size 4 *)

(** The table [first[256]]: information about the first byte of an
    encoding, written by the ranges of its rows. *)
Definition first (b : Z) : Z :=
  if b <? 0x80 then as_        (* 0x00-0x7F *)
  else if b <? 0xC2 then xx    (* 0x80-0xBF, 0xC0, 0xC1 *)
  else if b <? 0xE0 then s1    (* 0xC2-0xDF *)
  else if b =? 0xE0 then s2
  else if b <? 0xED then s3    (* 0xE1-0xEC *)
  else if b =? 0xED then s4
  else if b <? 0xF0 then s3    (* 0xEE, 0xEF *)
  else if b =? 0xF0 then s5
  else if b <? 0xF4 then s6    (* 0xF1-0xF3 *)
  else if b =? 0xF4 then s7
  else xx.                     (* 0xF5-0xFF *)

(** The table [acceptRanges[16]] of (lo, hi) bounds on the second byte. *)
Definition acceptRanges (i : Z) : Z * Z :=
  match i with
  | 0 => (locb, hicb)
  | 1 => (0xA0, hicb)
  | 2 => (locb, 0x9F)
  | 3 => (0x90, hicb)
  | 4 => (locb, 0x8F)
  | _ => (0, 0)
  end.

(** [DecodeRuneInString(s)]: the first rune of [s] and its width in
    bytes; [(RuneError, 0)] on the empty string and [(RuneError, 1)] on
    an invalid encoding. *)
Definition DecodeRuneInString (s : string) : Z * Z :=
  let n := len s in
  if n <? 1 then (RuneError, 0)
  else
    let s0 := idx s 0 in
    let x := first s0 in
    if as_ <=? x then
      (* mask := rune(x) << 31 >> 31: all ones when x = xx, zero when x = as *)
      let mask := if Z.testbit x 0 then -1 else 0 in
      (Z.lor (Z.land s0 (Z.lnot mask)) (Z.land RuneError mask), 1)
    else
      let sz := Z.land x 7 in
      let accept := acceptRanges (Z.shiftr x 4) in
      if n <? sz then (RuneError, 1)
      else
        let s1 := idx s 1 in
        if (s1 <? fst accept) || (snd accept <? s1) then (RuneError, 1)
        else if sz <=? 2 then
          (Z.lor (Z.shiftl (Z.land s0 mask2) 6) (Z.land s1 maskx), 2)
        else
          let s2 := idx s 2 in
          if (s2 <? locb) || (hicb <? s2) then (RuneError, 1)
          else if sz <=? 3 then
            (Z.lor (Z.lor (Z.shiftl (Z.land s0 mask3) 12)
                          (Z.shiftl (Z.land s1 maskx) 6))
                   (Z.land s2 maskx), 3)
          else
            let s3 := idx s 3 in
            if (s3 <? locb) || (hicb <? s3) then (RuneError, 1)
            else
              (Z.lor (Z.lor (Z.lor (Z.shiftl (Z.land s0 mask4) 18)
                                   (Z.shiftl (Z.land s1 maskx) 12))
                            (Z.shiftl (Z.land s2 maskx) 6))
                     (Z.land s3 maskx), 4).

(** [RuneStart(b)]: [b] is not a continuation byte. *)
Definition RuneStart (b : Z) : bool := negb (Z.land b 0xC0 =? 0x80).

(** The loop [for start--; start >= lim; start-- { if RuneStart(s[start])
    { break } }] of [DecodeLastRuneInString], entered with [start]
    already decremented.  It runs at most [UTFMax] times, which bounds
    [fuel] (lemma [DecodeLastRuneInString_fuel]). *)
Fixpoint backToRuneStart (s : string) (lim : Z) (fuel : nat) (start : Z) : Z :=
  match fuel with
  | O => start
  | S fuel' =>
    if start <? lim then start
    else if RuneStart (idx s start) then start
    else backToRuneStart s lim fuel' (start - 1)
  end.

(** [DecodeLastRuneInString(s)]: the last rune of [s] and its width. *)
Definition DecodeLastRuneInString (s : string) : Z * Z :=
  let end_ := len s in
  if end_ =? 0 then (RuneError, 0)
  else
    let start := end_ - 1 in
    let r := idx s start in
    if r <? RuneSelf then (r, 1)
    else
      let lim := end_ - UTFMax in
      let lim := if lim <? 0 then 0 else lim in
      let start := backToRuneStart s lim (Z.to_nat UTFMax) (start - 1) in
      let start := if start <? 0 then 0 else start in
      let '(r, size) := DecodeRuneInString (slice s start end_) in
      if negb (start + size =? end_) then (RuneError, 1)
      else (r, size).

End utf8.

(** ** unicode *)

Module unicode.

Definition MaxLatin1 : Z := 0xFF.

(** [IsSpace(r)]: the Latin-1 switch, then the White_Space range table. *)
Definition IsSpace (r : Z) : bool :=
  if (0 <=? r) && (r <=? MaxLatin1) then
    (r =? 0x09) || (r =? 0x0A) || (r =? 0x0B) || (r =? 0x0C) || (r =? 0x0D)
    || (r =? 0x20) || (r =? 0x85) || (r =? 0xA0)
  else
    (r =? 0x1680) || ((0x2000 <=? r) && (r <=? 0x200A))
    || ((0x2028 <=? r) && (r <=? 0x2029)) || (r =? 0x202F)
    || (r =? 0x205F) || (r =? 0x3000).

End unicode.

(** ** strings *)

Module strings.

(** The table [asciiSpace[256]]. *)
Definition asciiSpace (c : Z) : Z :=
  if (c =? 0x09) || (c =? 0x0A) || (c =? 0x0B) || (c =? 0x0C) || (c =? 0x0D)
     || (c =? 0x20)
  then 1 else 0.

(** The loop [for i, r := range s { if f(r) == truth { return i } }] of
    [indexFunc].  The argument is the part of the string not yet
    visited, [i] is its offset, and [skip] counts the remaining bytes of
    the rune decoded last, which the range loop steps over. *)
Fixpoint indexFunc_range (f : Z -> bool) (truth : bool)
    (s : string) (i : Z) (skip : nat) : Z :=
  match s with
  | EmptyString => -1
  | String _ t =>
    match skip with
    | S k => indexFunc_range f truth t (i + 1) k
    | O =>
      let '(r, size) := utf8.DecodeRuneInString s in
      if Bool.eqb (f r) truth then i
      else indexFunc_range f truth t (i + 1) (Z.to_nat (size - 1))
    end
  end.

Definition indexFunc (s : string) (f : Z -> bool) (truth : bool) : Z :=
  indexFunc_range f truth s 0 0.

(** The loop [for i := len(s); i > 0; { ... }] of [lastIndexFunc].  Each
    iteration lowers [i] by at least one, so [fuel = len(s)] suffices
    (lemma [lastIndexFunc_fuel]). *)
Fixpoint lastIndexFunc_loop (s : string) (f : Z -> bool) (truth : bool)
    (fuel : nat) (i : Z) : Z :=
  match fuel with
  | O => -1
  | S fuel' =>
    if 0 <? i then
      let '(r, size) := utf8.DecodeLastRuneInString (slice s 0 i) in
      let i := i - size in
      if Bool.eqb (f r) truth then i
      else lastIndexFunc_loop s f truth fuel' i
    else -1
  end.

Definition lastIndexFunc (s : string) (f : Z -> bool) (truth : bool) : Z :=
  lastIndexFunc_loop s f truth (String.length s) (len s).

Definition TrimLeftFunc (s : string) (f : Z -> bool) : string :=
  let i := indexFunc s f false in
  if i =? -1 then ""
  else slice s i (len s).

Definition TrimRightFunc (s : string) (f : Z -> bool) : string :=
  let i := lastIndexFunc s f false in
  let i :=
    if (0 <=? i) && (utf8.RuneSelf <=? idx s i) then
      let '(_, wid) := utf8.DecodeRuneInString (slice s i (len s)) in
      i + wid
    else i + 1 in
  slice s 0 i.

Definition TrimFunc (s : string) (f : Z -> bool) : string :=
  TrimRightFunc (TrimLeftFunc s f) f.

(** The second loop of [TrimSpace], [for ; stop > start; stop--], on
    [t = s[start:]] with [stop] counted from [start]. *)
Fixpoint TrimSpace_stop (t : string) (stop : nat) : string :=
  match stop with
  | O => slice t 0 0
  | S k =>
    let c := idx t (Z.of_nat k) in
    if utf8.RuneSelf <=? c then
      TrimRightFunc (slice t 0 (Z.of_nat stop)) unicode.IsSpace
    else if asciiSpace c =? 0 then slice t 0 (Z.of_nat stop)
    else TrimSpace_stop t k
  end.

(** The first loop of [TrimSpace], [for ; start < len(s); start++], on
    the remaining part [s[start:]]. *)
Fixpoint TrimSpace_start (s : string) : string :=
  match s with
  | EmptyString => EmptyString
  | String c t =>
    if utf8.RuneSelf <=? byte_val c then TrimFunc s unicode.IsSpace
    else if asciiSpace (byte_val c) =? 0 then TrimSpace_stop s (String.length s)
    else TrimSpace_start t
  end.

(** [TrimSpace(s)]: [s] without leading and trailing white space, as
    defined by Unicode. *)
Definition TrimSpace (s : string) : string := TrimSpace_start s.

(** [HasSuffix(s, suffix)] *)
Definition HasSuffix (s suffix : string) : bool :=
  (len suffix <=? len s) && String.eqb (slice s (len s - len suffix) (len s)) suffix.

(** [TrimSuffix(s, suffix)] *)
Definition TrimSuffix (s suffix : string) : string :=
  if HasSuffix s suffix then slice s 0 (len s - len suffix) else s.

End strings.

(** ** Values of the Go runtime *)

(** An [error] value; [Error] is its [Error()] method and [errors_New]
    is [errors.New]. *)
Record error : Type := errors_New { Error : string }.

(** A Go result pair [(v, err)]. *)
Inductive result (A : Type) : Type :=
| Ok (v : A)
| Err (err : error).
Arguments Ok {A} v.
Arguments Err {A} err.

(** A slice [[]T] is either [nil] ([None]) or backed by an array, possibly
    of length zero ([Some []]). *)
Definition goslice (A : Type) : Type := option (list A).

(** The elements a [range] over the slice visits. *)
Definition elems {A : Type} (s : goslice A) : list A :=
  match s with
  | None => []
  | Some l => l
  end.

(** [len(s)] on a slice *)
Definition slice_len {A : Type} (s : goslice A) : Z :=
  Z.of_nat (length (elems s)).

(** ** net/url, net/http, time: the values this package handles *)

Module url.

Record URL : Type := {
  Scheme : string;
  Opaque : string;
  User : option (string * option string);
  Host : string;
  Path : string;
  RawPath : string;
  ForceQuery : bool;
  RawQuery : string;
  Fragment : string;
  RawFragment : string
}.

(** The assignment [u.Scheme = scheme]. *)
Definition set_Scheme (scheme : string) (u : URL) : URL :=
  {| Scheme := scheme; Opaque := Opaque u; User := User u; Host := Host u;
     Path := Path u; RawPath := RawPath u; ForceQuery := ForceQuery u;
     RawQuery := RawQuery u; Fragment := Fragment u;
     RawFragment := RawFragment u |}.

End url.

Module time.

(** A [Duration] counts nanoseconds. *)
Definition Second : Z := 1000000000.

End time.

Module http.

Definition StatusBadRequest : Z := 400.
Definition StatusForbidden : Z := 403.
Definition StatusInternalServerError : Z := 500.

(** The type [http.Header], which is that of [textproto.MIMEHeader]: a map
    from canonical keys to the values added under them. *)
Abbreviation MIMEHeader := (gmap string (list string)).

(** The fields of [http.Request] that this package and its callees
    exchange. *)
Record Request : Type := {
  Method : string;
  URL : url.URL;
  Header : MIMEHeader;
  Body : list Byte.byte
}.

(** The fields of [http.Response] that this package reads. *)
Record Response : Type := {
  Status : string;
  StatusCode : Z
}.

Record Client : Type := {
  Timeout : Z
}.

(** The state of the [ResponseWriter] of one inbound request. *)
Record ResponseWriter : Type := {
  wroteHeader : bool;
  status : Z;
  written : string
}.

Definition newResponseWriter : ResponseWriter :=
  {| wroteHeader := false; status := 0; written := "" |}.

(** [w.WriteHeader(code)]: only the first call sets the status. *)
Definition WriteHeader (code : Z) (w : ResponseWriter) : ResponseWriter :=
  if wroteHeader w then w
  else {| wroteHeader := true; status := code; written := written w |}.

(** [w.Write(data)]: writes the header with status 200 if none was
    written, then appends to the body. *)
Definition Write (data : string) (w : ResponseWriter) : ResponseWriter :=
  let w := WriteHeader 200 w in
  {| wroteHeader := wroteHeader w; status := status w;
     written := written w +:+ data |}.

(** The effect of [http.Error(w, error, code)] on [w]:
    [w.WriteHeader(code); fmt.Fprintln(w, error)]. *)
Definition Error_on (error : string) (code : Z) (w : ResponseWriter)
    : ResponseWriter :=
  Write (error +:+ LF) (WriteHeader code w).

End http.

(** ** The providers package, as far as this package uses it *)

(** Modelled from the spec: the type [providers.Hook], declared outside
    this file (section 3 of the specification: the request method, the
    headers as a map from name to value, the payload as raw bytes); the
    field names are those [redirect] reads. *)
Record Hook : Type := {
  Payload : list Byte.byte;
  Headers : gmap string string;
  RequestMethod : string
}.

(** Modelled from the spec: the interface [providers.Provider], declared
    outside this file (section 4.1: [Validate(hook) -> bool], false on any
    mismatch, never an error); [Validate] is the one method called
    here. *)
Record Provider : Type := {
  Validate : Hook -> bool
}.

(** ** Library functions and constants taken as given

    [URL_String] is the method [String] of [url.URL], [CanonicalMIMEHeaderKey]
    is the function of net/textproto that [Header.Add] applies to its key,
    [ContentTypeHeader] is the constant [providers.ContentTypeHeader], and
    [map_range] is the order in which a [range] statement visits the
    entries of a [map[string]string]: Go leaves the order unspecified, so
    all that is known is that every entry is visited once. *)
Class GoLib : Type := {
  URL_String : url.URL -> string;
  CanonicalMIMEHeaderKey : string -> string;
  ContentTypeHeader : string;
  map_range : gmap string string -> list (string * string);
  map_range_perm : forall m, map_range m ≡ₚ map_to_list m
}.

(** [h.Add(key, value)]: [h[k] = append(h[k], value)] for the canonical
    form [k] of [key]. *)
Definition Header_Add `{GoLib} (h : http.MIMEHeader) (key value : string)
    : http.MIMEHeader :=
  let key := CanonicalMIMEHeaderKey key in
  <[key := ((h !!! key) ++ [value])%list]> h.

(** [req.Header.Add(key, value)] *)
Definition Request_Header_Add `{GoLib} (req : http.Request)
    (key value : string) : http.Request :=
  {| http.Method := http.Method req; http.URL := http.URL req;
     http.Header := Header_Add (http.Header req) key value;
     http.Body := http.Body req |}.

(** ** The Proxy *)

Record Proxy : Type := {
  provider : string;
  upstreamURL : string;
  allowedPaths : goslice string;
  secret : string;
  httpClient : http.Client
}.

(** ** Calls that leave the package

    The functions of this package are programs over the calls they make
    to their collaborators: the logger, the response writer of the
    inbound request, the providers and parser packages, net/url and
    net/http.  A call names the function and its arguments; its type
    index is the type of the answer. *)
Inductive call : Type -> Type :=
| log_Printf (msg : string) : call unit
| http_Error (error : string) (code : Z) : call unit
| providers_NewProvider (kind secret : string) : call (result Provider)
| parser_Parse (r : http.Request) (provider : Provider) : call (result Hook)
| url_Parse (rawURL : string) : call (result url.URL)
| http_NewRequest (method url : string) (body : list Byte.byte)
    : call (result http.Request)
| Client_Do (c : http.Client) (req : http.Request)
    : call (result http.Response).

Inductive prog (A : Type) : Type :=
| Ret (a : A)
| Call {X : Type} (c : call X) (k : X -> prog A).
Arguments Ret {A} a.
Arguments Call {A X} c k.

Fixpoint prog_bind {A B : Type} (f : A -> prog B) (m : prog A) : prog B :=
  match m with
  | Ret a => f a
  | Call c k => Call c (fun x => prog_bind f (k x))
  end.

#[global] Instance prog_mret : MRet prog := @Ret.
#[global] Instance prog_mbind : MBind prog := @prog_bind.

Definition perform {X : Type} (c : call X) : prog X := Call c Ret.

(** A call together with the answer it received. *)
Inductive event : Type :=
| Event {X : Type} (c : call X) (x : X).

(** The collaborators: an answer for every call. *)
Definition env : Type := forall X : Type, call X -> X.

(** Runs a program against its collaborators; returns the calls made, in
    order, and the result. *)
Fixpoint run {A : Type} (e : env) (m : prog A) : list event * A :=
  match m with
  | Ret a => ([], a)
  | Call c k =>
    let x := e _ c in
    let '(tr, a) := run e (k x) in
    (Event c x :: tr, a)
  end.

(** ** pkg/proxy/proxy.go *)

(** The loop of [isPathAllowed] over [p.allowedPaths]. *)
Fixpoint isPathAllowed_range (allowed : list string) (path : string) : bool :=
  match allowed with
  | [] => false
  | p :: rest =>
    if String.eqb (strings.TrimSuffix (strings.TrimSpace p) "/")
                  (strings.TrimSuffix (strings.TrimSpace path) "/")
    then true
    else isPathAllowed_range rest path
  end.

Definition isPathAllowed (p : Proxy) (path : string) : bool :=
  (* All paths allowed *)
  if slice_len (allowedPaths p) =? 0 then true
  else
    (* Check if given passed exists in allowedPaths *)
    isPathAllowed_range (elems (allowedPaths p)) path.

Definition redirect `{GoLib} (p : Proxy) (hook : option Hook) (path : string)
    : prog (result http.Response) :=
  match hook with
  | None => mret (Err (errors_New "Cannot redirect with nil Hook"))
  | Some hook =>
    (* Parse url to check validity *)
    r ← perform (url_Parse (upstreamURL p +:+ path));
    match r with
    | Err err => mret (Err err)
    | Ok url =>
      (* Assign default scheme as http if not specified *)
      let url :=
        if String.eqb (url.Scheme url) "" then url.set_Scheme "http" url
        else url in
      (* Create Redirect request *)
      r ← perform (http_NewRequest (RequestMethod hook) (URL_String url)
                                    (Payload hook));
      match r with
      | Err err => mret (Err err)
      | Ok req =>
        let req :=
          match Headers hook !! ContentTypeHeader with
          | Some val => Request_Header_Add req ContentTypeHeader val
          | None => req
          end in
        (* Set Headers from hook *)
        let req :=
          foldl (fun req kv => Request_Header_Add req kv.1 kv.2) req
                (map_range (Headers hook)) in
        perform (Client_Do (httpClient p) req)
      end
    end
  end.

(** The handler of [POST /*path].  Its writes to the response writer [w]
    are the [http_Error] calls; [params] is not used. *)
Definition proxyRequest `{GoLib} (p : Proxy) (r : http.Request) : prog unit :=
  let r_URL := URL_String (http.URL r) in
  let r_URL_Path := url.Path (http.URL r) in
  perform (log_Printf ("Proxying Request from '" +:+ r_URL
                       +:+ "', to upstream '" +:+ upstreamURL p +:+ r_URL_Path
                       +:+ "'" +:+ LF));;
  if negb (isPathAllowed p r_URL_Path) then
    perform (log_Printf ("Not allowed to proxy path: '" +:+ r_URL_Path +:+ "'"));;
    perform (http_Error ("Not allowed to proxy path: '" +:+ r_URL_Path +:+ "'")
                        http.StatusForbidden)
  else
    r1 ← perform (providers_NewProvider (provider p) (secret p));
    match r1 with
    | Err err =>
      perform (log_Printf ("Error creating provider: " +:+ Error err));;
      perform (http_Error "Error creating Provider"
                          http.StatusInternalServerError)
    | Ok provider =>
      r2 ← perform (parser_Parse r provider);
      match r2 with
      | Err err =>
        perform (log_Printf ("Eror Parsing Hook: " +:+ Error err));;
        perform (http_Error ("Error parsing Hook: " +:+ Error err)
                            http.StatusBadRequest)
      | Ok hook =>
        if negb (Validate provider hook) then
          (* err is nil here, which %v prints as <nil> *)
          perform (log_Printf "Eror Validating Hook: <nil>");;
          perform (http_Error "Error validating Hook" http.StatusBadRequest)
        else
          r3 ← redirect p (Some hook) r_URL_Path;
          match r3 with
          | Err errs =>
            perform (log_Printf ("Error Redirecting '" +:+ r_URL
                                 +:+ "' to upstream '" +:+ upstreamURL p
                                 +:+ r_URL_Path +:+ "': " +:+ Error errs
                                 +:+ LF));;
            perform (http_Error ("Error Redirecting '" +:+ r_URL
                                 +:+ "' to upstream '" +:+ upstreamURL p
                                 +:+ r_URL_Path +:+ "'")
                                http.StatusInternalServerError)
          | Ok resp =>
            if 400 <=? http.StatusCode resp then
              perform (log_Printf ("Error Redirecting '" +:+ r_URL
                                   +:+ "' to upstream '" +:+ upstreamURL p
                                   +:+ r_URL_Path
                                   +:+ "', Upstream Redirect Status: "
                                   +:+ http.Status resp +:+ LF));;
              perform (http_Error ("Error Redirecting '" +:+ r_URL
                                   +:+ "' to upstream '" +:+ upstreamURL p
                                   +:+ r_URL_Path
                                   +:+ "' Upstream Redirect Status:"
                                   +:+ http.Status resp)
                                  (http.StatusCode resp))
            else
              perform (log_Printf ("Redirected incomming request '" +:+ r_URL
                                   +:+ "' to '" +:+ upstreamURL p +:+ r_URL_Path
                                   +:+ "' with Response: '" +:+ http.Status resp
                                   +:+ "'" +:+ LF))
          end
      end
    end.

Definition NewProxy (upstreamURL : string) (allowedPaths : goslice string)
    (provider : string) (secret : string) : result Proxy :=
  (* Validate Params *)
  if len (strings.TrimSpace secret) =? 0 then
    Err (errors_New "Cannot create Proxy with empty secret")
  else if len (strings.TrimSpace upstreamURL) =? 0 then
    Err (errors_New "Cannot create Proxy with empty upstreamURL")
  else if len (strings.TrimSpace provider) =? 0 then
    Err (errors_New "Cannot create Proxy with empty provider")
  else
    match allowedPaths with
    | None => Err (errors_New "Cannot create Proxy with nil allowedPaths")
    | Some _ =>
      Ok {| provider := provider;
            upstreamURL := upstreamURL;
            allowedPaths := allowedPaths;
            secret := secret;
            httpClient := {| http.Timeout := time.Second * 60 |} |}
    end.

(** ** What the original caller and the upstream observe *)

(** The response the server sends for a handler that made the calls
    [tr]: every [http_Error] call acts on the response writer, and a
    handler that returns without writing gets status 200 and an empty
    body. *)
Definition replay (w : http.ResponseWriter) (ev : event) : http.ResponseWriter :=
  match ev with
  | Event (http_Error error code) _ => http.Error_on error code w
  | Event _ _ => w
  end.

Definition response (tr : list event) : Z * string :=
  let w := http.WriteHeader 200 (foldl replay http.newResponseWriter tr) in
  (http.status w, http.written w).

(** The call is an outbound HTTP call. *)
Definition is_Client_Do (ev : event) : bool :=
  match ev with
  | Event (Client_Do _ _) _ => true
  | Event _ _ => false
  end.

(** The call is one that [redirect] makes. *)
Definition is_redirect_call (ev : event) : bool :=
  match ev with
  | Event (url_Parse _) _ => true
  | Event (http_NewRequest _ _ _) _ => true
  | Event (Client_Do _ _) _ => true
  | Event _ _ => false
  end.

(** The call writes to the log. *)
Definition is_log (ev : event) : bool :=
  match ev with
  | Event (log_Printf _) _ => true
  | Event _ _ => false
  end.

(** The calls other than those to the logger. *)
Definition steps (tr : list event) : list event :=
  filter (fun ev => is_log ev = false) tr.

(** ** Notions used to state the properties *)

(** The expression both sides of the comparison in [isPathAllowed] go
    through. *)
Definition normalize (path : string) : string :=
  strings.TrimSuffix (strings.TrimSpace path) "/".

(** The conversion [[]rune(s)]: the runes a [range] over [s] yields. *)
Fixpoint runes_from (s : string) (skip : nat) : list Z :=
  match s with
  | EmptyString => []
  | String _ t =>
    match skip with
    | S k => runes_from t k
    | O =>
      let '(r, size) := utf8.DecodeRuneInString s in
      r :: runes_from t (Z.to_nat (size - 1))
    end
  end.

Definition runes (s : string) : list Z := runes_from s 0.

(** Every rune of [s] is white space. *)
Definition whitespace_only (s : string) : Prop :=
  forallb unicode.IsSpace (runes s) = true.

(** [s] is blank: nothing is left of it after trimming. *)
Definition blank (s : string) : Prop := len (strings.TrimSpace s) = 0.

(** The event of asking the collaborators [e] the call [c]. *)
Definition asked (e : env) {X : Type} (c : call X) : event := Event c (e X c).

(** The number of times the pair [(key, value)] occurs in a sequence of
    additions to a header. *)
Definition additions (key value : string) (adds : list (string * string)) : nat :=
  length (filter (fun kv => kv = (key, value)) adds).

(** ** Example values *)

(** An instance of the library functions for the examples: the map is
    visited in the order of [map_to_list], header keys are taken as
    canonical already. *)
#[global] Instance exampleLib : GoLib := {|
  URL_String u :=
    (if String.eqb (url.Scheme u) "" then "" else url.Scheme u +:+ ":")
    +:+ "//" +:+ url.Host u +:+ url.Path u;
  CanonicalMIMEHeaderKey key := key;
  ContentTypeHeader := "Content-Type";
  map_range m := map_to_list m;
  map_range_perm m := Permutation_refl (map_to_list m)
|}.

Definition exampleProxy (allowed : list string) : Proxy :=
  {| provider := "github";
     upstreamURL := "//upstream:8080";
     allowedPaths := Some allowed;
     secret := "s3cret";
     httpClient := {| http.Timeout := time.Second * 60 |} |}.

Definition exampleHook : Hook :=
  {| Payload := [Byte.x7b; Byte.x7d];
     Headers := <["Content-Type" := "application/json"]>
                (<["X-Hub-Signature" := "sha1=0a1b"]> ∅);
     RequestMethod := "POST" |}.

Definition exampleURL (path : string) : url.URL :=
  {| url.Scheme := ""; url.Opaque := ""; url.User := None;
     url.Host := "upstream:8080"; url.Path := path; url.RawPath := "";
     url.ForceQuery := false; url.RawQuery := ""; url.Fragment := "";
     url.RawFragment := "" |}.

Definition exampleRequest (path : string) : http.Request :=
  {| http.Method := "POST"; http.URL := exampleURL path;
     http.Header := ∅; http.Body := [Byte.x7b; Byte.x7d] |}.

(** Collaborators for the examples: the provider accepts the hook or not
    as [valid] says, the URL parser splits off the host of [exampleProxy],
    and the upstream answers with status [code]. *)
Definition exampleEnv (valid : bool) (code : Z) (st : string) : env :=
  fun X c =>
    match c in call X return X with
    | log_Printf _ => tt
    | http_Error _ _ => tt
    | providers_NewProvider _ _ => Ok {| Validate := fun _ => valid |}
    | parser_Parse _ _ => Ok exampleHook
    | url_Parse rawURL => Ok (exampleURL (slice rawURL 15 (len rawURL)))
    | http_NewRequest method u body =>
      Ok {| http.Method := method; http.URL := exampleURL u;
            http.Header := ∅; http.Body := body |}
    | Client_Do _ _ => Ok {| http.Status := st; http.StatusCode := code |}
    end.

(** The URL [redirect] passes on: the parsed one, with the scheme [http]
    when it has none. *)
Definition with_default_scheme (u : url.URL) : url.URL :=
  if String.eqb (url.Scheme u) "" then url.set_Scheme "http" u else u.

(** The additions [redirect] makes to the header of the outbound request,
    in order. *)
Definition header_additions `{GoLib} (hook : Hook) : list (string * string) :=
  match Headers hook !! ContentTypeHeader with
  | Some val => (ContentTypeHeader, val) :: map_range (Headers hook)
  | None => map_range (Headers hook)
  end.

(** The request after the additions [adds]. *)
Definition add_all `{GoLib} (req : http.Request) (adds : list (string * string))
    : http.Request :=
  foldl (fun req kv => Request_Header_Add req kv.1 kv.2) req adds.

(** U+00A0, no-break space, and U+2003, em space, in UTF-8. *)
Definition nbsp : string := String "194"%char (String "160"%char "").
Definition emsp : string :=
  String "226"%char (String "128"%char (String "131"%char "")).

(** ** The server side of the package: health and Run *)

(** Health Check Endpoint: what [health] does to the response writer [w];
    it reads neither the request nor [params]. *)
Definition health (p : Proxy) (w : http.ResponseWriter) : http.ResponseWriter :=
  http.Write "I'm Healthy and I know it! ;) " (http.WriteHeader 200 w).

(** The method values [p.health] and [p.proxyRequest] that [Run] hands to
    the router. *)
Inductive handle : Type :=
| Proxy_health (p : Proxy)
| Proxy_proxyRequest (p : Proxy).

(** A registration [router.Handle(method, path, handle)]; [router.GET]
    and [router.POST] are the shortcuts for their method. *)
Record route : Type := {
  route_method : string;
  route_path : string;
  route_handle : handle
}.

(** What a call of [Run] comes to: a panic with the value given, or,
    after the line [logged] is written to the log, the tail call
    [http.ListenAndServe(addr, router)], whose result [Run] returns, for
    the router with the registrations [routes], in order. *)
Inductive Run_outcome : Type :=
| Run_panics (v : string)
| Run_serves (routes : list route) (logged : string) (addr : string).

Definition Run (p : Proxy) (listenAddress : string) : Run_outcome :=
  if len (strings.TrimSpace listenAddress) =? 0 then
    Run_panics "Cannot create Proxy with empty listenAddress"
  else
    let router := [] in
    let router := router ++ [{| route_method := "GET"; route_path := "/health";
                                route_handle := Proxy_health p |}] in
    let router := router ++ [{| route_method := "POST"; route_path := "/*path";
                                route_handle := Proxy_proxyRequest p |}] in
    Run_serves router ("Listening at: " +:+ listenAddress) listenAddress.

(** ** Further notions used to state the properties *)

(** The call writes an error response. *)
Definition is_http_Error (ev : event) : bool :=
  match ev with
  | Event (http_Error _ _) _ => true
  | Event _ _ => false
  end.

(** The call constructs the provider. *)
Definition is_NewProvider (ev : event) : bool :=
  match ev with
  | Event (providers_NewProvider _ _) _ => true
  | Event _ _ => false
  end.

(** The proxy [p] with another secret. *)
Definition with_secret (secret : string) (p : Proxy) : Proxy :=
  {| provider := provider p; upstreamURL := upstreamURL p;
     allowedPaths := allowedPaths p; secret := secret;
     httpClient := httpClient p |}.

(** Every rune of [s] is white space, as a boolean. *)
Definition all_space (s : string) : bool := forallb unicode.IsSpace (runes s).

(** The arguments of a call of [url.Parse], [http.NewRequest] or of the
    client's [Do]. *)
Definition url_Parse_arg (ev : event) : option string :=
  match ev with
  | Event (url_Parse rawURL) _ => Some rawURL
  | Event _ _ => None
  end.

Definition NewRequest_args (ev : event)
    : option (string * string * list Byte.byte) :=
  match ev with
  | Event (http_NewRequest method u body) _ => Some (method, u, body)
  | Event _ _ => None
  end.

Definition Client_Do_args (ev : event) : option (http.Client * http.Request) :=
  match ev with
  | Event (Client_Do c req) _ => Some (c, req)
  | Event _ _ => None
  end.

(** All bytes of [w] are white space of the table [asciiSpace]. *)
Fixpoint ascii_spaces (w : string) : bool :=
  match w with
  | EmptyString => true
  | String c t => negb (strings.asciiSpace (byte_val c) =? 0) && ascii_spaces t
  end.

(** * Properties *)

(** ** Strings as byte sequences *)

Lemma len_nonneg s : 0 <= len s.
Proof. unfold len. lia. Qed.

Lemma len_empty : len "" = 0.
Proof. reflexivity. Qed.

Lemma len_cons c s : len (String c s) = 1 + len s.
Proof. unfold len. cbn [String.length]. lia. Qed.

Lemma app_nil_l_str (b : string) : "" +:+ b = b.
Proof. reflexivity. Qed.

Lemma app_cons_str c (a b : string) : String c a +:+ b = String c (a +:+ b).
Proof. reflexivity. Qed.

Lemma len_app a b : len (a +:+ b) = len a + len b.
Proof.
  unfold len. induction a as [|c a IH];
    rewrite ?app_nil_l_str, ?app_cons_str; cbn [String.length]; lia.
Qed.

Lemma len_zero_empty s : len s = 0 -> s = "".
Proof. destruct s; [done|]. rewrite len_cons. pose proof (len_nonneg s). lia. Qed.

Lemma byte_val_range c : 0 <= byte_val c < 256.
Proof.
  unfold byte_val. pose proof (N_ascii_bounded c). lia.
Qed.

Lemma substring_0_length s : substring 0 (String.length s) s = s.
Proof. induction s as [|c s IH]; [done|]. cbn. by rewrite IH. Qed.

Lemma substring_0_app a b : substring 0 (String.length a) (a +:+ b) = a.
Proof.
  induction a as [|c a IH]; rewrite ?app_nil_l_str, ?app_cons_str; cbn.
  - by destruct b.
  - by rewrite IH.
Qed.

Lemma substring_0_0 s : substring 0 0 s = "".
Proof. by destruct s. Qed.

Lemma substring_skip_app a b n :
  substring (String.length a) n (a +:+ b) = substring 0 n b.
Proof.
  induction a as [|c a IH]; rewrite ?app_nil_l_str, ?app_cons_str; cbn;
    [done|apply IH].
Qed.

Lemma length_substring_le_all n m s :
  (String.length (substring n m s) <= String.length s)%nat.
Proof.
  revert n m. induction s as [|c s IH]; intros [|n] [|m]; cbn; try lia.
  - specialize (IH 0%nat m). lia.
  - specialize (IH n 0%nat). lia.
  - specialize (IH n (S m)). lia.
Qed.

Lemma slice_all s : slice s 0 (len s) = s.
Proof.
  unfold slice, len. rewrite Z.sub_0_r, Nat2Z.id. apply substring_0_length.
Qed.

Lemma slice_0_0 s : slice s 0 0 = "".
Proof. unfold slice. apply substring_0_0. Qed.

Lemma slice_prefix a b : slice (a +:+ b) 0 (len a) = a.
Proof.
  unfold slice, len. rewrite Z.sub_0_r, Nat2Z.id. apply substring_0_app.
Qed.

Lemma slice_suffix a b : slice (a +:+ b) (len a) (len a + len b) = b.
Proof.
  unfold slice, len. rewrite Nat2Z.id.
  replace (Z.to_nat _) with (String.length b) by lia.
  rewrite substring_skip_app. apply substring_0_length.
Qed.

Lemma len_slice_le s lo hi : len (slice s lo hi) <= len s.
Proof.
  unfold slice, len. pose proof (length_substring_le_all (Z.to_nat lo) (Z.to_nat (hi - lo)) s). lia.
Qed.

Lemma idx_0 c s : idx (String c s) 0 = byte_val c.
Proof. reflexivity. Qed.

Lemma idx_succ c s i : 0 <= i -> idx (String c s) (1 + i) = idx s i.
Proof.
  intros Hi. unfold idx. replace (Z.to_nat (1 + i)) with (S (Z.to_nat i)) by lia.
  reflexivity.
Qed.

Lemma idx_app_l a b i : 0 <= i < len a -> idx (a +:+ b) i = idx a i.
Proof.
  revert i. induction a as [|c a IH]; intros i Hi.
  - rewrite len_empty in Hi. lia.
  - rewrite len_cons in Hi. rewrite app_cons_str.
    destruct (decide (i = 0)) as [->|Hne]; [done|].
    replace i with (1 + (i - 1)) by lia.
    rewrite !idx_succ by lia. apply IH. lia.
Qed.

Lemma idx_app_r a c b : idx (a +:+ String c b) (len a) = byte_val c.
Proof.
  induction a as [|c' a IH]; [done|].
  rewrite len_cons, app_cons_str, idx_succ by apply len_nonneg. done.
Qed.

(** ** Decoding UTF-8 *)

Ltac zbool :=
  repeat match goal with
  | H : (_ || _) = true |- _ => apply orb_true_iff in H; destruct H as [H|H]
  | H : (_ || _) = false |- _ => apply orb_false_iff in H; destruct H
  | H : (_ && _) = true |- _ => apply andb_true_iff in H; destruct H
  | H : (_ && _) = false |- _ => apply andb_false_iff in H; destruct H as [H|H]
  | H : negb _ = true |- _ => apply negb_true_iff in H
  | H : negb _ = false |- _ => apply negb_false_iff in H
  | H : (_ <? _) = true |- _ => apply Z.ltb_lt in H
  | H : (_ <? _) = false |- _ => apply Z.ltb_ge in H
  | H : (_ <=? _) = true |- _ => apply Z.leb_le in H
  | H : (_ <=? _) = false |- _ => apply Z.leb_gt in H
  | H : (_ =? _) = true |- _ => apply Z.eqb_eq in H
  | H : (_ =? _) = false |- _ => apply Z.eqb_neq in H
  end.

Ltac case_if :=
  match goal with
  | |- context [if ?b then _ else _] =>
    let E := fresh "E" in destruct b eqn:E; zbool
  end.

(** The entries of [first] other than [as] and [xx] give a width of 2, 3
    or 4 and an accept range that starts at or above [locb]. *)
Lemma first_cases b :
  0 <= b < 256 ->
  (b < 0x80 /\ utf8.first b = utf8.as_) \/
  (0x80 <= b /\ utf8.first b = utf8.xx) \/
  (0x80 <= b /\ exists x, utf8.first b = x /\
     (utf8.as_ <=? x) = false /\
     2 <= Z.land x 7 <= 4 /\
     utf8.locb <= fst (utf8.acceptRanges (Z.shiftr x 4))).
Proof.
  intros Hb. unfold utf8.first.
  repeat case_if; try lia;
    first [ left; split; [lia|reflexivity]
          | right; left; split; [lia|reflexivity]
          | right; right; split; [lia|]; eexists; split; [reflexivity|];
            vm_compute; repeat split; congruence ].
Qed.

Lemma DecodeRuneInString_ascii c t :
  byte_val c < utf8.RuneSelf ->
  utf8.DecodeRuneInString (String c t) = (byte_val c, 1).
Proof.
  intros Hc. unfold utf8.RuneSelf in Hc.
  pose proof (byte_val_range c) as Hr.
  unfold utf8.DecodeRuneInString.
  rewrite len_cons, idx_0. pose proof (len_nonneg t).
  case_if; [lia|].
  destruct (first_cases (byte_val c) Hr) as [[_ ->]|[[? _]|[? _]]]; try lia.
  cbn. f_equal. rewrite Z.land_0_r, Z.lor_0_r. apply Z.land_m1_r.
Qed.

Lemma DecodeRuneInString_size s :
  s <> "" ->
  1 <= snd (utf8.DecodeRuneInString s) <= len s.
Proof.
  intros Hs. destruct s as [|c t]; [done|].
  unfold utf8.DecodeRuneInString.
  rewrite len_cons. pose proof (len_nonneg t).
  pose proof (byte_val_range c) as Hr. rewrite idx_0.
  case_if; [lia|].
  destruct (first_cases (byte_val c) Hr)
    as [[_ ->]|[[_ ->]|[_ (x & -> & -> & Hsz & _)]]];
    [cbn; lia|cbn; lia|].
  repeat case_if; cbn [snd]; lia.
Qed.

(** A byte below [RuneSelf] that follows a string does not change how the
    string's first rune decodes. *)
Lemma DecodeRuneInString_app_ascii c t x u :
  byte_val x < utf8.RuneSelf ->
  utf8.DecodeRuneInString (String c t +:+ String x u)
  = utf8.DecodeRuneInString (String c t).
Proof.
  intros Hx. unfold utf8.RuneSelf in Hx.
  set (s := String c t).
  assert (HL : 1 <= len s) by (unfold s; rewrite len_cons; pose proof (len_nonneg t); lia).
  assert (Hsame : forall i, 0 <= i < len s -> idx (s +:+ String x u) i = idx s i)
    by (intros; by apply idx_app_l).
  assert (Hat : idx (s +:+ String x u) (len s) = byte_val x) by apply idx_app_r.
  unfold utf8.DecodeRuneInString.
  rewrite len_app, len_cons. pose proof (len_nonneg u).
  rewrite (Hsame 0) by lia.
  pose proof (byte_val_range c) as Hr.
  assert (idx s 0 = byte_val c) as -> by reflexivity.
  assert ((len s + (1 + len u) <? 1) = false) as -> by (apply Z.ltb_ge; lia).
  assert ((len s <? 1) = false) as -> by (apply Z.ltb_ge; lia).
  destruct (first_cases (byte_val c) Hr)
    as [[_ ->]|[[_ ->]|[_ (f & -> & -> & Hsz & Hlo)]]];
    [reflexivity|reflexivity|].
  unfold utf8.locb, utf8.hicb in *.
  assert (Z.land f 7 = 2 \/ Z.land f 7 = 3 \/ Z.land f 7 = 4)
    as [Hz|[Hz|Hz]] by lia; rewrite Hz in *; clear Hz.
  all: destruct (Z_lt_le_dec (len s) 2) as [H2|H2];
    [ replace (len s) with 1 in * by lia
    | rewrite (Hsame 1) by lia;
      destruct (Z_lt_le_dec (len s) 3) as [H3|H3];
      [ replace (len s) with 2 in * by lia
      | rewrite (Hsame 2) by lia;
        destruct (Z_lt_le_dec (len s) 4) as [H4|H4];
        [ replace (len s) with 3 in * by lia
        | rewrite (Hsame 3) by lia ] ] ].
  all: rewrite ?Hat; repeat case_if; first [reflexivity | lia].
Qed.

(** ** strings.indexFunc and the trimming functions *)

Section index.
Variables (f : Z -> bool) (truth : bool).

Lemma indexFunc_range_bounds s i k :
  0 <= i ->
  strings.indexFunc_range f truth s i k = -1 \/
  i <= strings.indexFunc_range f truth s i k < i + len s.
Proof.
  revert i k. induction s as [|c t IH]; intros i k Hi; [by left|].
  rewrite len_cons. pose proof (len_nonneg t).
  cbn [strings.indexFunc_range]. destruct k as [|k].
  - destruct (utf8.DecodeRuneInString (String c t)) as [r size].
    destruct (Bool.eqb (f r) truth); [right; lia|].
    destruct (IH (i + 1) (Z.to_nat (size - 1)) ltac:(lia)) as [->|?];
      [by left|right; lia].
  - destruct (IH (i + 1) k ltac:(lia)) as [->|?]; [by left|right; lia].
Qed.

Lemma indexFunc_range_shift s i k :
  0 <= i ->
  strings.indexFunc_range f truth s i k =
  if strings.indexFunc_range f truth s 0 k =? -1 then -1
  else strings.indexFunc_range f truth s 0 k + i.
Proof.
  revert i k. induction s as [|c t IH]; intros i k Hi; [done|].
  assert (Hstep : forall j k', 0 <= j ->
    strings.indexFunc_range f truth t (j + 1) k' =
    if strings.indexFunc_range f truth t 1 k' =? -1 then -1
    else strings.indexFunc_range f truth t 1 k' + j).
  { intros j k' Hj. rewrite (IH (j + 1)), (IH 1) by lia.
    destruct (indexFunc_range_bounds t 0 k' ltac:(lia)) as [->|Hb]; [done|].
    repeat case_if; lia. }
  cbn [strings.indexFunc_range]. destruct k as [|k].
  - destruct (utf8.DecodeRuneInString (String c t)) as [r size].
    destruct (Bool.eqb (f r) truth); [cbn; lia|].
    rewrite Z.add_0_l. by apply Hstep.
  - rewrite Z.add_0_l. by apply Hstep.
Qed.

(** Appending a byte below [RuneSelf] on which [f] answers [truth]: the
    loop finds what it found before, or else the appended byte. *)
Lemma indexFunc_range_app s x u i k :
  byte_val x < utf8.RuneSelf ->
  Bool.eqb (f (byte_val x)) truth = true ->
  0 <= i -> (k <= String.length s)%nat ->
  strings.indexFunc_range f truth (s +:+ String x u) i k =
  if strings.indexFunc_range f truth s i k =? -1 then i + len s
  else strings.indexFunc_range f truth s i k.
Proof.
  intros Hx Hf. revert i k. induction s as [|c t IH]; intros i k Hi Hk.
  - cbn in Hk. assert (k = 0%nat) as -> by lia.
    rewrite app_nil_l_str. cbn [strings.indexFunc_range].
    rewrite DecodeRuneInString_ascii by done. rewrite Hf. cbn. rewrite len_empty. lia.
  - rewrite app_cons_str. cbn [strings.indexFunc_range].
    rewrite len_cons. cbn in Hk. destruct k as [|k].
    + rewrite <- app_cons_str, DecodeRuneInString_app_ascii by done.
      pose proof (DecodeRuneInString_size (String c t) ltac:(done)) as Hsz.
      destruct (utf8.DecodeRuneInString (String c t)) as [r size].
      cbn [snd] in Hsz. rewrite len_cons in Hsz.
      destruct (Bool.eqb (f r) truth).
      * case_if; lia.
      * rewrite IH by (unfold len in Hsz; lia). case_if; lia.
    + rewrite IH by lia. case_if; lia.
Qed.

End index.

(** When every rune satisfies [f], the search for one that does not
    fails. *)
Lemma indexFunc_range_all f s i k :
  forallb f (runes_from s k) = true ->
  strings.indexFunc_range f false s i k = -1.
Proof.
  revert i k. induction s as [|c t IH]; intros i k; [done|].
  cbn [strings.indexFunc_range runes_from]. destruct k as [|k]; [|apply IH].
  destruct (utf8.DecodeRuneInString (String c t)) as [r size].
  cbn [forallb]. intros [Hr Hrest]%andb_true_iff. rewrite Hr. cbn. by apply IH.
Qed.

Lemma slice_cons c s lo hi :
  0 <= lo -> slice (String c s) (1 + lo) (1 + hi) = slice s lo hi.
Proof.
  intros Hlo. unfold slice.
  replace (Z.to_nat (1 + lo)) with (S (Z.to_nat lo)) by lia.
  replace (1 + hi - (1 + lo)) with (hi - lo) by lia. reflexivity.
Qed.

Lemma slice_0_cons c s hi :
  0 <= hi -> slice (String c s) 0 (1 + hi) = String c (slice s 0 hi).
Proof.
  intros Hhi. unfold slice. rewrite !Z.sub_0_r.
  replace (Z.to_nat (1 + hi)) with (S (Z.to_nat hi)) by lia. reflexivity.
Qed.

Lemma slice_app_to_end a b lo :
  0 <= lo <= len a ->
  slice (a +:+ b) lo (len a + len b) = slice a lo (len a) +:+ b.
Proof.
  revert lo. induction a as [|c a IH]; intros lo Hlo.
  - rewrite len_empty in *. assert (lo = 0) as -> by lia.
    rewrite app_nil_l_str, Z.add_0_l, slice_all. reflexivity.
  - rewrite len_cons in *. rewrite app_cons_str.
    pose proof (len_nonneg a). pose proof (len_nonneg b).
    destruct (decide (lo = 0)) as [->|Hne].
    + rewrite <- Z.add_assoc, !slice_0_cons by lia.
      rewrite app_cons_str. f_equal.
      apply IH. lia.
    + replace lo with (1 + (lo - 1)) by lia.
      rewrite <- Z.add_assoc, !slice_cons by lia. apply IH. lia.
Qed.

Lemma TrimLeftFunc_app f s x :
  byte_val x < utf8.RuneSelf -> f (byte_val x) = false ->
  strings.TrimLeftFunc (s +:+ String x "") f
  = strings.TrimLeftFunc s f +:+ String x "".
Proof.
  intros Hx Hf. unfold strings.TrimLeftFunc, strings.indexFunc.
  rewrite indexFunc_range_app by (rewrite ?Hf; done || lia).
  rewrite len_app, len_cons, len_empty. pose proof (len_nonneg s).
  destruct (indexFunc_range_bounds f false s 0 0 ltac:(lia)) as [->|Hb].
  - rewrite Z.eqb_refl. case_if; [lia|].
    rewrite Z.add_0_l. apply (slice_suffix s (String x "")).
  - repeat case_if; try lia.
    apply (slice_app_to_end s (String x "")). lia.
Qed.

Lemma TrimLeftFunc_cons_true f c t :
  byte_val c < utf8.RuneSelf -> f (byte_val c) = true ->
  strings.TrimLeftFunc (String c t) f = strings.TrimLeftFunc t f.
Proof.
  intros Hc Hf. unfold strings.TrimLeftFunc, strings.indexFunc.
  cbn [strings.indexFunc_range]. rewrite DecodeRuneInString_ascii, Hf by done.
  cbn [Bool.eqb]. change (Z.to_nat (1 - 1)) with 0%nat. rewrite Z.add_0_l.
  rewrite (indexFunc_range_shift _ _ t 1) by lia.
  destruct (indexFunc_range_bounds f false t 0 0 ltac:(lia)) as [->|Hb]; [done|].
  rewrite len_cons. repeat case_if; try lia.
  rewrite (Z.add_comm _ 1). apply slice_cons. lia.
Qed.

Lemma TrimLeftFunc_cons_false f c t :
  byte_val c < utf8.RuneSelf -> f (byte_val c) = false ->
  strings.TrimLeftFunc (String c t) f = String c t.
Proof.
  intros Hc Hf. unfold strings.TrimLeftFunc, strings.indexFunc.
  cbn [strings.indexFunc_range]. rewrite DecodeRuneInString_ascii, Hf by done.
  cbn [Bool.eqb Z.eqb]. apply slice_all.
Qed.

Lemma TrimLeftFunc_all f s :
  forallb f (runes s) = true -> strings.TrimLeftFunc s f = "".
Proof.
  intros H. unfold strings.TrimLeftFunc, strings.indexFunc.
  by rewrite indexFunc_range_all.
Qed.

(** ** Decoding from the end, and the fuel of the two backward loops *)

Lemma len_slice_0 s i : 0 <= i <= len s -> len (slice s 0 i) = i.
Proof.
  revert i. induction s as [|c s IH]; intros i Hi.
  - rewrite len_empty in Hi. assert (i = 0) as -> by lia. done.
  - rewrite len_cons in Hi. destruct (decide (i = 0)) as [->|Hne]; [done|].
    replace i with (1 + (i - 1)) by lia.
    rewrite slice_0_cons, len_cons, IH by lia. lia.
Qed.

Lemma length_app_one s x :
  String.length (s +:+ String x "") = S (String.length s).
Proof.
  induction s as [|c s IH]; rewrite ?app_nil_l_str, ?app_cons_str; cbn; [done|].
  by rewrite IH.
Qed.

Lemma backToRuneStart_le s lim fuel start :
  utf8.backToRuneStart s lim fuel start <= start.
Proof.
  revert start. induction fuel as [|fuel IH]; intros start; cbn; [lia|].
  repeat case_if; try lia. specialize (IH (start - 1)). lia.
Qed.

(** The loop stops once [start] is below [lim]: more fuel than the
    distance between them changes nothing. *)
Lemma backToRuneStart_fuel s lim fuel1 fuel2 start :
  start - lim + 1 < Z.of_nat fuel1 -> start - lim + 1 < Z.of_nat fuel2 ->
  utf8.backToRuneStart s lim fuel1 start = utf8.backToRuneStart s lim fuel2 start.
Proof.
  revert fuel2 start. induction fuel1 as [|fuel1 IH]; intros fuel2 start H1 H2.
  - destruct fuel2 as [|fuel2]; [done|]. cbn. case_if; [done|lia].
  - destruct fuel2 as [|fuel2]; cbn.
    + case_if; [done|lia].
    + repeat case_if; try done. apply IH; lia.
Qed.

Lemma DecodeLastRuneInString_ascii s x :
  byte_val x < utf8.RuneSelf ->
  utf8.DecodeLastRuneInString (s +:+ String x "") = (byte_val x, 1).
Proof.
  intros Hx. unfold utf8.DecodeLastRuneInString.
  rewrite len_app, len_cons, len_empty. pose proof (len_nonneg s).
  case_if; [lia|].
  replace (len s + (1 + 0) - 1) with (len s) by lia.
  rewrite idx_app_r. case_if; [done|lia].
Qed.

Lemma DecodeLastRuneInString_size s :
  s <> "" -> 1 <= snd (utf8.DecodeLastRuneInString s) <= len s.
Proof.
  intros Hs. unfold utf8.DecodeLastRuneInString.
  assert (1 <= len s).
  { destruct s; [done|]. rewrite len_cons. pose proof (len_nonneg s). lia. }
  case_if; [lia|]. case_if; [cbn; lia|].
  pose proof (backToRuneStart_le s
    (if len s - utf8.UTFMax <? 0 then 0 else len s - utf8.UTFMax)
    (Z.to_nat utf8.UTFMax) (len s - 1 - 1)) as Hle.
  set (st := utf8.backToRuneStart _ _ _ _) in *.
  destruct (st <? 0) eqn:Hst; zbool;
    destruct (utf8.DecodeRuneInString _) as [r size];
    repeat case_if; cbn [snd]; lia.
Qed.

Lemma lastIndexFunc_loop_fuel s f truth fuel1 fuel2 i :
  0 <= i <= len s ->
  (Z.to_nat i <= fuel1)%nat -> (Z.to_nat i <= fuel2)%nat ->
  strings.lastIndexFunc_loop s f truth fuel1 i
  = strings.lastIndexFunc_loop s f truth fuel2 i.
Proof.
  revert fuel2 i. induction fuel1 as [|fuel1 IH]; intros fuel2 i Hi H1 H2.
  - destruct fuel2 as [|fuel2]; [done|]. cbn. case_if; [lia|done].
  - destruct fuel2 as [|fuel2]; cbn.
    + case_if; [lia|done].
    + case_if; [|done].
      assert (Hne : slice s 0 i <> "").
      { intros Heq. pose proof (len_slice_0 s i ltac:(lia)) as Hl.
        rewrite Heq, len_empty in Hl. lia. }
      pose proof (DecodeLastRuneInString_size _ Hne) as Hsz.
      rewrite len_slice_0 in Hsz by lia.
      destruct (utf8.DecodeLastRuneInString (slice s 0 i)) as [r size].
      cbn [snd] in Hsz. destruct (Bool.eqb (f r) truth); [done|].
      apply IH; lia.
Qed.

Lemma lastIndexFunc_app s f x :
  byte_val x < utf8.RuneSelf -> f (byte_val x) = false ->
  strings.lastIndexFunc (s +:+ String x "") f false = len s.
Proof.
  intros Hx Hf. unfold strings.lastIndexFunc.
  rewrite length_app_one. cbn [strings.lastIndexFunc_loop].
  rewrite slice_all, DecodeLastRuneInString_ascii, Hf by done.
  rewrite len_app, len_cons, len_empty. pose proof (len_nonneg s).
  case_if; [|lia]. cbn [Bool.eqb]. lia.
Qed.

Lemma TrimRightFunc_len f s : len (strings.TrimRightFunc s f) <= len s.
Proof. unfold strings.TrimRightFunc. apply len_slice_le. Qed.

Lemma TrimRightFunc_app f s x :
  byte_val x < utf8.RuneSelf -> f (byte_val x) = false ->
  strings.TrimRightFunc (s +:+ String x "") f = s +:+ String x "".
Proof.
  intros Hx Hf. unfold strings.TrimRightFunc.
  rewrite lastIndexFunc_app, idx_app_r by done.
  pose proof (len_nonneg s).
  assert ((0 <=? len s) && (utf8.RuneSelf <=? byte_val x) = false) as ->.
  { apply andb_false_iff. right. apply Z.leb_gt. done. }
  rewrite <- (slice_all (s +:+ String x "")) at 2.
  by rewrite len_app, len_cons, len_empty, Z.add_0_r.
Qed.

(** The fuel given to the two backward loops is enough: more of it does
    not change what they return. *)
Lemma DecodeLastRuneInString_fuel s fuel :
  (Z.to_nat utf8.UTFMax <= fuel)%nat ->
  let lim := if len s - utf8.UTFMax <? 0 then 0 else len s - utf8.UTFMax in
  utf8.backToRuneStart s lim fuel (len s - 1 - 1)
  = utf8.backToRuneStart s lim (Z.to_nat utf8.UTFMax) (len s - 1 - 1).
Proof.
  intros Hfuel lim. subst lim. unfold utf8.UTFMax in *.
  apply backToRuneStart_fuel; case_if; lia.
Qed.

Lemma lastIndexFunc_fuel s f truth fuel :
  (String.length s <= fuel)%nat ->
  strings.lastIndexFunc_loop s f truth fuel (len s)
  = strings.lastIndexFunc s f truth.
Proof.
  intros Hfuel. unfold strings.lastIndexFunc.
  apply lastIndexFunc_loop_fuel; unfold len; lia.
Qed.

(** ** strings.TrimSpace *)

(** On a byte below [RuneSelf] the table [asciiSpace] and
    [unicode.IsSpace] agree. *)
Lemma asciiSpace_IsSpace c :
  0 <= c < utf8.RuneSelf ->
  (strings.asciiSpace c =? 0) = negb (unicode.IsSpace c).
Proof.
  intros Hc. unfold utf8.RuneSelf in Hc.
  unfold strings.asciiSpace, unicode.IsSpace, unicode.MaxLatin1.
  assert ((0 <=? c) && (c <=? 255) = true) as ->
    by (apply andb_true_iff; split; apply Z.leb_le; lia).
  assert ((c =? 133) = false) as -> by (apply Z.eqb_neq; lia).
  assert ((c =? 160) = false) as -> by (apply Z.eqb_neq; lia).
  rewrite !orb_false_r. by destruct (_ || _).
Qed.

Lemma TrimSpace_stop_len t n : len (strings.TrimSpace_stop t n) <= len t.
Proof.
  induction n as [|n IH]; cbn [strings.TrimSpace_stop].
  - apply len_slice_le.
  - repeat case_if; try done.
    + etrans; [apply TrimRightFunc_len|apply len_slice_le].
    + apply len_slice_le.
Qed.

Lemma TrimSpace_len_TrimLeft s :
  len (strings.TrimSpace s) <= len (strings.TrimLeftFunc s unicode.IsSpace).
Proof.
  unfold strings.TrimSpace.
  induction s as [|c t IH]; [done|].
  cbn [strings.TrimSpace_start]. pose proof (byte_val_range c).
  case_if; [apply TrimRightFunc_len|].
  rewrite asciiSpace_IsSpace by lia.
  destruct (unicode.IsSpace (byte_val c)) eqn:Hsp; cbn [negb].
  - by rewrite TrimLeftFunc_cons_true.
  - rewrite TrimLeftFunc_cons_false by done. apply TrimSpace_stop_len.
Qed.

(** Trimming a string that ends in a byte below [RuneSelf] that is not
    white space only trims on the left. *)
Lemma TrimSpace_app s x :
  byte_val x < utf8.RuneSelf -> unicode.IsSpace (byte_val x) = false ->
  strings.TrimSpace (s +:+ String x "")
  = strings.TrimLeftFunc s unicode.IsSpace +:+ String x "".
Proof.
  intros Hx Hsp. unfold strings.TrimSpace. pose proof (byte_val_range x).
  assert (Hlast : forall u,
    strings.TrimSpace_stop (u +:+ String x "") (String.length (u +:+ String x ""))
    = u +:+ String x "").
  { intros u. rewrite length_app_one. cbn [strings.TrimSpace_stop].
    change (Z.of_nat (String.length u)) with (len u). rewrite idx_app_r.
    case_if; [lia|]. rewrite asciiSpace_IsSpace, Hsp by lia. cbn [negb].
    rewrite <- (slice_all (u +:+ String x "")) at 2.
    rewrite len_app, len_cons, len_empty. f_equal. unfold len. lia. }
  induction s as [|c t IH].
  - rewrite app_nil_l_str. cbn [strings.TrimSpace_start].
    case_if; [lia|]. rewrite asciiSpace_IsSpace, Hsp by lia. cbn [negb].
    apply (Hlast "").
  - rewrite app_cons_str. cbn [strings.TrimSpace_start].
    pose proof (byte_val_range c). rewrite <- app_cons_str.
    case_if.
    + unfold strings.TrimFunc.
      by rewrite TrimLeftFunc_app, TrimRightFunc_app.
    + rewrite asciiSpace_IsSpace by lia.
      destruct (unicode.IsSpace (byte_val c)) eqn:Hc; cbn [negb].
      * by rewrite IH, TrimLeftFunc_cons_true.
      * by rewrite Hlast, TrimLeftFunc_cons_false.
Qed.

Lemma runes_cons_ascii c t :
  byte_val c < utf8.RuneSelf -> runes (String c t) = byte_val c :: runes t.
Proof.
  intros Hc. unfold runes. cbn [runes_from].
  by rewrite DecodeRuneInString_ascii.
Qed.

Lemma TrimSpace_whitespace_only w :
  whitespace_only w -> strings.TrimSpace w = "".
Proof.
  unfold whitespace_only, strings.TrimSpace.
  induction w as [|c t IH]; intros Hw; [done|].
  cbn [strings.TrimSpace_start]. pose proof (byte_val_range c).
  case_if.
  - unfold strings.TrimFunc. by rewrite TrimLeftFunc_all.
  - rewrite runes_cons_ascii in Hw by done.
    cbn [forallb] in Hw. apply andb_true_iff in Hw as [Hc Ht].
    rewrite asciiSpace_IsSpace, Hc by lia. cbn [negb]. by apply IH.
Qed.

(** ** strings.TrimSuffix with the suffix ["/"] *)

Lemma string_eqb_refl s : String.eqb s s = true.
Proof. by apply String.eqb_eq. Qed.

Lemma TrimSuffix_len s suffix : len (strings.TrimSuffix s suffix) <= len s.
Proof. unfold strings.TrimSuffix. case_if; [apply len_slice_le|done]. Qed.

Lemma TrimSuffix_app s suffix : strings.TrimSuffix (s +:+ suffix) suffix = s.
Proof.
  unfold strings.TrimSuffix, strings.HasSuffix.
  rewrite len_app. pose proof (len_nonneg s). pose proof (len_nonneg suffix).
  replace (len s + len suffix - len suffix) with (len s) by lia.
  rewrite slice_suffix, string_eqb_refl, slice_prefix.
  by assert ((len suffix <=? len s + len suffix) = true) as ->
    by (apply Z.leb_le; lia).
Qed.

Lemma TrimSuffix_other_last s x y :
  x <> y ->
  strings.TrimSuffix (s +:+ String x "") (String y "") = s +:+ String x "".
Proof.
  intros Hxy. unfold strings.TrimSuffix, strings.HasSuffix.
  rewrite len_app. pose proof (len_nonneg s).
  change (len (String y "")) with 1. change (len (String x "")) with 1 at 2.
  replace (len s + 1 - 1) with (len s) by lia.
  rewrite (slice_suffix s (String x "")).
  assert (String.eqb (String x "") (String y "") = false) as ->.
  { apply String.eqb_neq. congruence. }
  by rewrite andb_false_r.
Qed.

(** ** The normalization of [isPathAllowed] *)

Lemma normalize_space p : normalize (" " +:+ p) = normalize p.
Proof. reflexivity. Qed.

Lemma normalize_app_slash p :
  normalize (p +:+ "/") = strings.TrimLeftFunc p unicode.IsSpace.
Proof.
  unfold normalize. rewrite TrimSpace_app by done. apply TrimSuffix_app.
Qed.

Lemma normalize_app_x p :
  normalize (p +:+ "x") = strings.TrimLeftFunc p unicode.IsSpace +:+ "x".
Proof.
  unfold normalize. rewrite TrimSpace_app by done.
  by apply TrimSuffix_other_last.
Qed.

Lemma normalize_len p :
  len (normalize p) <= len (strings.TrimLeftFunc p unicode.IsSpace).
Proof.
  unfold normalize. etrans; [apply TrimSuffix_len|apply TrimSpace_len_TrimLeft].
Qed.

Lemma normalize_app_x_ne p : normalize (p +:+ "x") <> normalize p.
Proof.
  intros Heq. pose proof (normalize_len p) as Hle.
  rewrite <- Heq, normalize_app_x, len_app in Hle.
  change (len "x") with 1 in Hle. lia.
Qed.

Lemma normalize_whitespace_only w : whitespace_only w -> normalize w = "".
Proof. intros Hw. unfold normalize. by rewrite TrimSpace_whitespace_only. Qed.

Lemma normalize_whitespace_only_slash w :
  whitespace_only w -> normalize (w +:+ "/") = "".
Proof. intros Hw. rewrite normalize_app_slash. by apply TrimLeftFunc_all. Qed.

(** ** Blank strings are the strings of white space only *)

Lemma slice_split s n :
  0 <= n <= len s -> slice s 0 n +:+ slice s n (len s) = s.
Proof.
  revert n. induction s as [|c s IH]; intros n Hn.
  - rewrite len_empty in Hn. assert (n = 0) as -> by lia. done.
  - rewrite len_cons in *. destruct (decide (n = 0)) as [->|Hne].
    + rewrite slice_0_0, app_nil_l_str, <- (len_cons c s). apply slice_all.
    + replace n with (1 + (n - 1)) by lia.
      rewrite slice_0_cons, slice_cons, app_cons_str by lia.
      f_equal. apply IH. lia.
Qed.

Lemma len_slice_to_end s i :
  0 <= i <= len s -> len (slice s i (len s)) = len s - i.
Proof.
  intros Hi. pose proof (slice_split s i Hi) as Hs.
  apply (f_equal len) in Hs. rewrite len_app, len_slice_0 in Hs by done. lia.
Qed.

Lemma slice_0_nonempty s j : s <> "" -> 1 <= j -> slice s 0 j <> "".
Proof.
  intros Hs Hj. destruct s as [|c s]; [done|].
  replace j with (1 + (j - 1)) by lia. by rewrite slice_0_cons by lia.
Qed.

(** What [indexFunc] finds is the start of a rune on which [f] answers
    [truth]. *)
Lemma indexFunc_range_found f truth s i k :
  0 <= i ->
  strings.indexFunc_range f truth s i k <> -1 ->
  Bool.eqb
    (f (utf8.DecodeRuneInString
          (slice s (strings.indexFunc_range f truth s i k - i) (len s))).1)
    truth = true.
Proof.
  revert i k. induction s as [|c t IH]; intros i k Hi; [done|].
  cbn [strings.indexFunc_range]. rewrite len_cons.
  assert (Hrec : forall k',
    strings.indexFunc_range f truth t (i + 1) k' <> -1 ->
    Bool.eqb
      (f (utf8.DecodeRuneInString
            (slice (String c t)
               (strings.indexFunc_range f truth t (i + 1) k' - i) (1 + len t))).1)
      truth = true).
  { intros k' Hk'.
    destruct (indexFunc_range_bounds f truth t (i + 1) k' ltac:(lia)) as [?|Hb];
      [done|].
    replace (strings.indexFunc_range f truth t (i + 1) k' - i)
      with (1 + (strings.indexFunc_range f truth t (i + 1) k' - (i + 1))) by lia.
    rewrite slice_cons by lia. apply IH; [lia|done]. }
  destruct k as [|k]; [|apply Hrec].
  destruct (utf8.DecodeRuneInString (String c t)) as [r size] eqn:Hdec.
  destruct (Bool.eqb (f r) truth) eqn:Hf; [|apply Hrec].
  intros _. rewrite Z.sub_diag, <- (len_cons c t), slice_all, Hdec. done.
Qed.

Lemma indexFunc_range_none f s i k :
  strings.indexFunc_range f false s i k = -1 -> 0 <= i ->
  forallb f (runes_from s k) = true.
Proof.
  revert i k. induction s as [|c t IH]; intros i k; [done|].
  cbn [strings.indexFunc_range runes_from]. destruct k as [|k].
  - destruct (utf8.DecodeRuneInString (String c t)) as [r size].
    destruct (f r) eqn:Hf; cbn [Bool.eqb forallb].
    + rewrite Hf. intros Hrest Hi. apply (IH (i + 1)); [done|lia].
    + lia.
  - intros Hrest Hi. apply (IH (i + 1)); [done|lia].
Qed.

Lemma lastIndexFunc_loop_bounds s f truth fuel i :
  0 <= i <= len s ->
  strings.lastIndexFunc_loop s f truth fuel i = -1 \/
  0 <= strings.lastIndexFunc_loop s f truth fuel i < i.
Proof.
  revert i. induction fuel as [|fuel IH]; intros i Hi; [by left|].
  cbn [strings.lastIndexFunc_loop]. case_if; [|by left].
  assert (Hne : slice s 0 i <> "") by (apply slice_0_nonempty; [|lia];
    intros ->; rewrite len_empty in Hi; lia).
  pose proof (DecodeLastRuneInString_size _ Hne) as Hsz.
  rewrite len_slice_0 in Hsz by lia.
  destruct (utf8.DecodeLastRuneInString (slice s 0 i)) as [r size].
  cbn [snd] in Hsz. destruct (Bool.eqb (f r) truth); [right; lia|].
  destruct (IH (i - size) ltac:(lia)) as [->|?]; [by left|right; lia].
Qed.

(** When the backward search for a rune that is not white space fails,
    the runes it went through reach the start of the string: there is a
    prefix that decodes, from its end, as one rune of white space. *)
Lemma lastIndexFunc_loop_none s f fuel i :
  0 < i <= len s -> (Z.to_nat i <= fuel)%nat ->
  strings.lastIndexFunc_loop s f false fuel i = -1 ->
  exists n r, 0 < n <= i
    /\ utf8.DecodeLastRuneInString (slice s 0 n) = (r, n) /\ f r = true.
Proof.
  revert i. induction fuel as [|fuel IH]; intros i Hi Hfuel; [lia|].
  cbn [strings.lastIndexFunc_loop]. case_if; [|lia].
  assert (Hne : slice s 0 i <> "") by (apply slice_0_nonempty; [|lia];
    intros ->; rewrite len_empty in Hi; lia).
  pose proof (DecodeLastRuneInString_size _ Hne) as Hsz.
  rewrite len_slice_0 in Hsz by lia.
  destruct (utf8.DecodeLastRuneInString (slice s 0 i)) as [r size] eqn:Hdec.
  cbn [snd] in Hsz. destruct (f r) eqn:Hf; cbn [Bool.eqb]; [|lia].
  destruct (decide (i - size = 0)) as [Hz|Hnz].
  - intros _. exists i, r. replace size with i in Hdec by lia. done.
  - intros Hrest. destruct (IH (i - size) ltac:(lia) ltac:(lia) Hrest)
      as (n & r' & Hn & Hd & Hr).
    exists n, r'. split; [lia|done].
Qed.

Lemma IsSpace_RuneError : unicode.IsSpace utf8.RuneError = false.
Proof. reflexivity. Qed.

(** A rune of white space that takes the whole string when decoded from
    the end is what decoding from the start gives. *)
Lemma DecodeLastRuneInString_whole u r :
  utf8.DecodeLastRuneInString u = (r, len u) -> u <> "" ->
  unicode.IsSpace r = true ->
  utf8.DecodeRuneInString u = (r, len u).
Proof.
  unfold utf8.DecodeLastRuneInString. intros Hdec Hne Hr.
  assert (1 <= len u).
  { destruct u; [done|]. rewrite len_cons. pose proof (len_nonneg u). lia. }
  destruct (len u =? 0) eqn:E0; zbool; [lia|].
  destruct (idx u (len u - 1) <? utf8.RuneSelf) eqn:E1; zbool.
  - injection Hdec as <- Hlen. destruct u as [|c [|c' u]]; [done| |].
    + cbn in E1 |- *. by rewrite DecodeRuneInString_ascii.
    + rewrite !len_cons in Hlen. pose proof (len_nonneg u). exfalso. lia.
  - set (st := utf8.backToRuneStart _ _ _ _) in *.
    destruct (st <? 0) eqn:E3;
      destruct (utf8.DecodeRuneInString _) as [r' size] eqn:Hd;
      destruct (negb _) eqn:E2; zbool;
      injection Hdec as <- Hsize;
      try (by rewrite IsSpace_RuneError in Hr).
    + assert (size = len u) as Hsz by lia. rewrite Hsz in *.
      by rewrite slice_all in Hd.
    + assert (st = 0) as Hst by lia. rewrite Hst, Hsize in *.
      by rewrite slice_all in Hd.
Qed.

(** Decoding reads no further than the rune it returns. *)
Lemma DecodeRuneInString_prefix u r rest :
  utf8.DecodeRuneInString u = (r, len u) -> u <> "" ->
  unicode.IsSpace r = true ->
  utf8.DecodeRuneInString (u +:+ rest) = (r, len u).
Proof.
  intros Hdec Hne Hr. destruct u as [|c t]; [done|].
  set (s := String c t) in *.
  assert (HL : 1 <= len s) by (unfold s; rewrite len_cons; pose proof (len_nonneg t); lia).
  assert (Hsame : forall i, 0 <= i < len s -> idx (s +:+ rest) i = idx s i)
    by (intros; by apply idx_app_l).
  revert Hdec. unfold utf8.DecodeRuneInString.
  rewrite len_app. pose proof (len_nonneg rest).
  rewrite (Hsame 0) by lia.
  pose proof (byte_val_range c) as Hb.
  assert (idx s 0 = byte_val c) as -> by reflexivity.
  assert ((len s + len rest <? 1) = false) as -> by (apply Z.ltb_ge; lia).
  assert ((len s <? 1) = false) as -> by (apply Z.ltb_ge; lia).
  destruct (first_cases (byte_val c) Hb)
    as [[_ ->]|[[_ ->]|[_ (f & -> & -> & Hsz & Hlo)]]].
  - done.
  - done.
  - assert (Z.land f 7 = 2 \/ Z.land f 7 = 3 \/ Z.land f 7 = 4)
      as [Hz|[Hz|Hz]] by lia; rewrite Hz in *; clear Hz.
    all: destruct (len s <? _) eqn:E; zbool;
      [ intros [= <- _]; by rewrite IsSpace_RuneError in Hr |].
    all: match goal with
         | |- context [?a + ?b <? ?k] =>
           assert ((a + b <? k) = false) as ->
             by (apply Z.ltb_ge; lia)
         end.
    all: rewrite ?(Hsame 1), ?(Hsame 2), ?(Hsame 3) by lia.
    all: repeat case_if; first [done | lia].
Qed.

Lemma TrimRightFunc_nonempty u :
  u <> "" ->
  unicode.IsSpace (utf8.DecodeRuneInString u).1 = false ->
  strings.TrimRightFunc u unicode.IsSpace <> "".
Proof.
  intros Hne Hfirst.
  assert (1 <= len u).
  { destruct u; [done|]. rewrite len_cons. pose proof (len_nonneg u). lia. }
  unfold strings.TrimRightFunc, strings.lastIndexFunc.
  destruct (lastIndexFunc_loop_bounds u unicode.IsSpace false
              (String.length u) (len u) ltac:(lia)) as [Hnone|Hb].
  - destruct (lastIndexFunc_loop_none u unicode.IsSpace (String.length u)
                (len u) ltac:(lia) ltac:(unfold len; lia) Hnone)
      as (n & r & Hn & Hdec & Hr).
    assert (Hpre : slice u 0 n <> "") by (apply slice_0_nonempty; [done|lia]).
    pose proof (len_slice_0 u n ltac:(lia)) as Hlen.
    rewrite <- Hlen in Hdec at 2.
    pose proof (DecodeLastRuneInString_whole _ _ Hdec Hpre Hr) as Hfwd.
    pose proof (DecodeRuneInString_prefix _ _ (slice u n (len u)) Hfwd Hpre Hr)
      as Hall. clear Hdec Hfwd. rename Hall into Hdec.
    rewrite slice_split in Hdec by lia.
    rewrite Hdec in Hfirst. cbn in Hfirst. congruence.
  - set (i := strings.lastIndexFunc_loop _ _ _ _ _) in *.
    apply slice_0_nonempty; [done|].
    destruct ((0 <=? i) && (utf8.RuneSelf <=? idx u i)); [|lia].
    assert (Hrest : slice u i (len u) <> "").
    { intros Heq. pose proof (len_slice_to_end u i ltac:(lia)) as Hl.
      rewrite Heq, len_empty in Hl. lia. }
    pose proof (DecodeRuneInString_size _ Hrest) as Hsz.
    destruct (utf8.DecodeRuneInString (slice u i (len u))) as [r wid].
    cbn [snd] in Hsz. lia.
Qed.

Lemma TrimSpace_stop_nonempty c t n :
  byte_val c < utf8.RuneSelf -> unicode.IsSpace (byte_val c) = false ->
  strings.TrimSpace_stop (String c t) n <> ""
  \/ n = 0%nat.
Proof.
  intros Hc Hsp. pose proof (byte_val_range c) as Hb.
  induction n as [|n IH]; [by right|]. left.
  cbn [strings.TrimSpace_stop].
  assert (Hpre : forall j, 1 <= j ->
    slice (String c t) 0 j = String c (slice t 0 (j - 1))).
  { intros j Hj. replace j with (1 + (j - 1)) at 1 by lia.
    by rewrite slice_0_cons by lia. }
  destruct (utf8.RuneSelf <=? idx (String c t) (Z.of_nat n)) eqn:E1.
  - rewrite Hpre by lia. apply TrimRightFunc_nonempty; [done|].
    by rewrite DecodeRuneInString_ascii.
  - destruct (strings.asciiSpace (idx (String c t) (Z.of_nat n)) =? 0) eqn:E2.
    + by rewrite Hpre by lia.
    + destruct IH as [IH| ->]; [done|]. exfalso.
      change (idx (String c t) (Z.of_nat 0)) with (byte_val c) in E2.
      rewrite asciiSpace_IsSpace, Hsp in E2 by lia. done.
Qed.

Lemma TrimSpace_blank_whitespace_only s :
  strings.TrimSpace s = "" -> whitespace_only s.
Proof.
  unfold strings.TrimSpace, whitespace_only.
  induction s as [|c t IH]; [done|].
  cbn [strings.TrimSpace_start]. pose proof (byte_val_range c) as Hb.
  destruct (utf8.RuneSelf <=? byte_val c) eqn:E1; zbool.
  - unfold strings.TrimFunc, strings.TrimLeftFunc, strings.indexFunc.
    set (s := String c t).
    destruct (indexFunc_range_bounds unicode.IsSpace false s 0 0 ltac:(lia))
      as [Hnone|Hfound].
    + intros _. by apply (indexFunc_range_none _ _ 0).
    + intros Htrim. exfalso.
      set (i := strings.indexFunc_range _ _ _ _ _) in *.
      assert ((i =? -1) = false) as Hi by (apply Z.eqb_neq; lia).
      rewrite Hi in Htrim. revert Htrim. apply TrimRightFunc_nonempty.
      * intros Heq. pose proof (len_slice_to_end s i ltac:(lia)) as Hl.
        rewrite Heq, len_empty in Hl. lia.
      * pose proof (indexFunc_range_found unicode.IsSpace false s 0 0
                      ltac:(lia) ltac:(fold i; lia)) as Hf.
        fold i in Hf. rewrite Z.sub_0_r in Hf.
        by destruct (unicode.IsSpace _).
  - rewrite asciiSpace_IsSpace by lia.
    destruct (unicode.IsSpace (byte_val c)) eqn:Hsp; cbn [negb].
    + intros Ht. rewrite runes_cons_ascii by done. cbn [forallb].
      rewrite Hsp. by apply IH.
    + intros Hstop. exfalso.
      destruct (TrimSpace_stop_nonempty c t (String.length (String c t))
                  ltac:(done) Hsp) as [?|?]; done.
Qed.

Lemma blank_whitespace_only s : blank s <-> whitespace_only s.
Proof.
  unfold blank. split.
  - intros Hlen. by apply TrimSpace_blank_whitespace_only, len_zero_empty.
  - intros Hw. by rewrite TrimSpace_whitespace_only.
Qed.

(** ** isPathAllowed *)

Lemma isPathAllowed_range_spec allowed path :
  isPathAllowed_range allowed path = true <->
  exists q, q ∈ allowed /\ normalize q = normalize path.
Proof.
  induction allowed as [|p rest IH]; cbn [isPathAllowed_range].
  - split; [done|]. intros (q & Hq & _). by apply elem_of_nil in Hq.
  - fold (normalize p). fold (normalize path).
    destruct (String.eqb (normalize p) (normalize path)) eqn:E.
    + apply String.eqb_eq in E. split; [|done].
      intros _. exists p. split; [apply elem_of_cons; by left|done].
    + apply String.eqb_neq in E. rewrite IH. split.
      * intros (q & Hq & Hn). exists q. split; [apply elem_of_cons; by right|done].
      * intros (q & Hq & Hn). apply elem_of_cons in Hq as [->|Hq]; [done|].
        by exists q.
Qed.

Lemma isPathAllowed_nonempty px path :
  elems (allowedPaths px) <> [] ->
  isPathAllowed px path = isPathAllowed_range (elems (allowedPaths px)) path.
Proof.
  intros Hne. unfold isPathAllowed, slice_len.
  destruct (elems (allowedPaths px)); [done|]. reflexivity.
Qed.

(** C3: with an empty allow-list, nil or of length zero, every path is
    allowed. *)
Theorem isPathAllowed_empty (px : Proxy) (path : string) :
  elems (allowedPaths px) = [] -> isPathAllowed px path = true.
Proof. intros Hnil. unfold isPathAllowed, slice_len. by rewrite Hnil. Qed.

Lemma isPathAllowed_empty_witness :
  isPathAllowed (exampleProxy []) "/any/path" = true.
Proof. apply (isPathAllowed_empty (exampleProxy []) "/any/path"). reflexivity. Defined.

(** C2, the claim as stated fails: with the allow-list [["/foo/"]] the
    entry followed by ["/"] is rejected, and with [["/foo"; "/foox"]] the
    entry ["/foo"] followed by ["x"] is allowed. *)
Lemma isPathAllowed_suffix_counterexample :
  ("/foo/" ∈ elems (allowedPaths (exampleProxy ["/foo/"]))
   /\ isPathAllowed (exampleProxy ["/foo/"]) ("/foo/" +:+ "/") = false)
  /\ ("/foo" ∈ elems (allowedPaths (exampleProxy ["/foo"; "/foox"]))
      /\ isPathAllowed (exampleProxy ["/foo"; "/foox"]) ("/foo" +:+ "x") = true).
Proof.
  split; (split; [cbn; apply elem_of_cons; by left|vm_compute; reflexivity]).
Qed.

(** C2, amended: with a non-empty allow-list a path is allowed iff its
    normal form (white space trimmed, then one trailing ["/"] removed) is
    that of some entry.  So every entry [p] is allowed, also behind a
    space; [p] followed by ["/"] is allowed when normalizing [p] strips
    leading white space only (and, when [p] is the only entry, only then);
    [p] followed by ["x"] is rejected when no entry has its normal form,
    as when [p] is the only entry.  The entry ["/foo"] matches ["/foo"]
    and ["/foo/"] but not ["/foo/bar"]. *)
Theorem isPathAllowed_normalized (px : Proxy) :
  elems (allowedPaths px) <> [] ->
  (forall path,
     isPathAllowed px path = true <->
     exists q, q ∈ elems (allowedPaths px) /\ normalize q = normalize path)
  /\ (forall p, p ∈ elems (allowedPaths px) ->
        isPathAllowed px p = true
        /\ isPathAllowed px (" " +:+ p) = true
        /\ (normalize p = strings.TrimLeftFunc p unicode.IsSpace ->
            isPathAllowed px (p +:+ "/") = true)
        /\ ((forall q, q ∈ elems (allowedPaths px) ->
               normalize q <> normalize (p +:+ "x")) ->
            isPathAllowed px (p +:+ "x") = false)
        /\ (elems (allowedPaths px) = [p] ->
            isPathAllowed px (p +:+ "x") = false
            /\ (isPathAllowed px (p +:+ "/") = true <->
                normalize p = strings.TrimLeftFunc p unicode.IsSpace)))
  /\ (isPathAllowed (exampleProxy ["/foo"]) "/foo" = true
      /\ isPathAllowed (exampleProxy ["/foo"]) "/foo/" = true
      /\ isPathAllowed (exampleProxy ["/foo"]) "/foo/bar" = false).
Proof.
  intros Hne.
  assert (Hiff : forall path,
     isPathAllowed px path = true <->
     exists q, q ∈ elems (allowedPaths px) /\ normalize q = normalize path).
  { intros path. rewrite isPathAllowed_nonempty by done.
    apply isPathAllowed_range_spec. }
  assert (Hno : forall path,
     (forall q, q ∈ elems (allowedPaths px) -> normalize q <> normalize path) ->
     isPathAllowed px path = false).
  { intros path Hall. apply not_true_is_false. rewrite Hiff.
    intros (q & Hq & Heq). by apply (Hall q). }
  split; [exact Hiff|]. split; [|by vm_compute].
  intros p Hp. split; [|split; [|split; [|split]]].
  - apply Hiff. by exists p.
  - apply Hiff. exists p. split; [done|]. by rewrite normalize_space.
  - intros Hnorm. apply Hiff. exists p. split; [done|].
    by rewrite normalize_app_slash.
  - apply Hno.
  - intros Honly. split.
    + apply Hno. intros q Hq. rewrite Honly in Hq.
      apply list_elem_of_singleton in Hq as ->.
      apply not_eq_sym, normalize_app_x_ne.
    + rewrite Hiff, Honly, normalize_app_slash. split.
      * intros (q & Hq & Heq). by apply list_elem_of_singleton in Hq as ->.
      * intros Hnorm. exists p. split; [by apply list_elem_of_singleton|done].
Qed.

Lemma isPathAllowed_normalized_witness :
  isPathAllowed (exampleProxy ["/repo1"; " /repo2/ "]) "/repo2" = true
  /\ isPathAllowed (exampleProxy ["/repo1"; " /repo2/ "]) ("/repo1" +:+ "/") = true
  /\ isPathAllowed (exampleProxy ["/repo1"]) ("/repo1" +:+ "x") = false.
Proof.
  pose proof (isPathAllowed_normalized (exampleProxy ["/repo1"; " /repo2/ "])
                ltac:(discriminate)) as (Hiff & Hentry & _).
  pose proof (isPathAllowed_normalized (exampleProxy ["/repo1"])
                ltac:(discriminate)) as (_ & Hone & _).
  split; [|split].
  - apply Hiff. exists " /repo2/ ". split; [|reflexivity].
    cbn. apply elem_of_cons. right. apply elem_of_cons. by left.
  - destruct (Hentry "/repo1") as (_ & _ & Hslash & _).
    + cbn. apply elem_of_cons. by left.
    + apply Hslash. reflexivity.
  - destruct (Hone "/repo1") as (_ & _ & _ & _ & Honly).
    + cbn. apply elem_of_cons. by left.
    + apply Honly. reflexivity.
Defined.

(** C10: an allow-list entry ["/"], or one made of white space only,
    has the empty normal form, as have the empty path, ["/"], and every
    path of white space only, with or without one trailing ["/"]: all
    these paths are allowed.  In particular the entry [""] allows the
    path ["/"]. *)
Theorem isPathAllowed_root_and_blank (px : Proxy) (entry : string) :
  entry ∈ elems (allowedPaths px) ->
  entry = "/" \/ whitespace_only entry ->
  normalize entry = ""
  /\ isPathAllowed px "" = true
  /\ isPathAllowed px "/" = true
  /\ (forall w, whitespace_only w ->
        normalize w = "" /\ normalize (w +:+ "/") = ""
        /\ isPathAllowed px w = true /\ isPathAllowed px (w +:+ "/") = true)
  /\ (entry = "" -> isPathAllowed px "/" = true).
Proof.
  intros Hin Hentry.
  assert (Hn : normalize entry = "").
  { destruct Hentry as [->|Hw]; [reflexivity|by apply normalize_whitespace_only]. }
  assert (Hne : elems (allowedPaths px) <> []).
  { intros Hnil. rewrite Hnil in Hin. by apply elem_of_nil in Hin. }
  assert (Hall : forall path, normalize path = "" -> isPathAllowed px path = true).
  { intros path Hp. rewrite isPathAllowed_nonempty by done.
    apply isPathAllowed_range_spec. exists entry. by rewrite Hn, Hp. }
  split; [done|]. split; [by apply Hall|]. split; [by apply Hall|].
  split; [|intros _; by apply Hall].
  intros w Hw.
  pose proof (normalize_whitespace_only w Hw).
  pose proof (normalize_whitespace_only_slash w Hw).
  repeat split; try done; by apply Hall.
Qed.

Lemma isPathAllowed_root_and_blank_witness :
  isPathAllowed (exampleProxy ["/repo1"; "/"]) "" = true
  /\ isPathAllowed (exampleProxy ["/repo1"; ""]) "/" = true.
Proof.
  assert (Hin : forall a b : string, b ∈ elems (allowedPaths (exampleProxy [a; b]))).
  { intros a b. cbn. apply elem_of_cons. right. apply elem_of_cons. by left. }
  split.
  - exact (proj1 (proj2 (isPathAllowed_root_and_blank
             (exampleProxy ["/repo1"; "/"]) "/" (Hin _ _) (or_introl eq_refl)))).
  - exact (proj1 (proj2 (proj2 (isPathAllowed_root_and_blank
             (exampleProxy ["/repo1"; ""]) "" (Hin _ _) (or_intror eq_refl))))).
Defined.

(** ** NewProxy *)

(** C4: [NewProxy] returns an error, and no Proxy, exactly when the
    secret, the upstream URL or the provider is blank after trimming, or
    the allowed paths are the nil slice; otherwise it returns a Proxy and
    no error.  The blank strings are those of white space only; an empty
    non-nil slice of allowed paths is accepted. *)
Theorem NewProxy_validation (u : string) (a : goslice string) (pr s : string) :
  ((exists err, NewProxy u a pr s = Err err) <->
     blank s \/ blank u \/ blank pr \/ a = None)
  /\ ((exists px, NewProxy u a pr s = Ok px) <->
        ~ blank s /\ ~ blank u /\ ~ blank pr /\ a <> None)
  /\ (forall w, blank w <-> whitespace_only w)
  /\ (exists px, NewProxy "//upstream:8080" (Some []) "github" "s3cret" = Ok px)
  /\ (exists err, NewProxy "//upstream:8080" None "github" "s3cret" = Err err).
Proof.
  split; [|split; [|split; [|split]]].
  - unfold NewProxy, blank. repeat case_if; destruct a as [allowed|]; split;
      first [ intros [err Herr]; discriminate Herr
            | intros _; tauto
            | intros _; exists (errors_New "Cannot create Proxy with empty secret"); reflexivity
            | intros _; exists (errors_New "Cannot create Proxy with empty upstreamURL"); reflexivity
            | intros _; exists (errors_New "Cannot create Proxy with empty provider"); reflexivity
            | intros _; exists (errors_New "Cannot create Proxy with nil allowedPaths"); reflexivity
            | intros [?|[?|[?|?]]]; done ].
  - unfold NewProxy, blank. repeat case_if; destruct a as [allowed|]; split;
      first [ intros [px Hpx]; discriminate Hpx
            | intros _; repeat split; done
            | intros _; eexists; reflexivity
            | intros (? & ? & ? & ?); done ].
  - apply blank_whitespace_only.
  - by eexists.
  - by eexists.
Qed.

(** ** Running programs *)

Lemma run_bind {A B : Type} (e : env) (m : prog A) (f : A -> prog B) :
  run e (m ≫= f) =
  let '(tr1, a) := run e m in
  let '(tr2, b) := run e (f a) in
  ((tr1 ++ tr2)%list, b).
Proof.
  induction m as [a|X c k IH]; cbn.
  - change (mbind f (Ret a)) with (f a). by destruct (run e (f a)).
  - change (mbind f (Call c k)) with (Call c (fun x => k x ≫= f)). cbn.
    rewrite IH. destruct (run e (k (e X c))) as [tr1 a].
    by destruct (run e (f a)).
Qed.

(** ** redirect *)

Section redirect.
Context `{GoLib}.

(** C7: without a hook [redirect] fails with the nil-hook error, whatever
    the path, and makes no call at all: no request is built or sent. *)
Theorem redirect_nil_hook (e : env) (p : Proxy) (path : string) :
  run e (redirect p None path)
  = ([], Err (errors_New "Cannot redirect with nil Hook")).
Proof. reflexivity. Qed.

End redirect.


Section redirect_props.
Context `{GoLib}.

Lemma redirect_run (e : env) (p : Proxy) (hook : Hook) (path : string) :
  run e (redirect p (Some hook) path) =
  let target := upstreamURL p +:+ path in
  match e _ (url_Parse target) with
  | Err err => ([asked e (url_Parse target)], Err err)
  | Ok u =>
    let mk := http_NewRequest (RequestMethod hook)
                (URL_String (with_default_scheme u)) (Payload hook) in
    match e _ mk with
    | Err err => ([asked e (url_Parse target); asked e mk], Err err)
    | Ok req =>
      let send := Client_Do (httpClient p) (add_all req (header_additions hook)) in
      ([asked e (url_Parse target); asked e mk; asked e send], e _ send)
    end
  end.
Proof.
  cbn. unfold asked.
  destruct (e _ (url_Parse (upstreamURL p +:+ path))) as [u|err] eqn:E1; cbn;
    [|reflexivity].
  fold (with_default_scheme u).
  destruct (e _ (http_NewRequest _ _ _)) as [req|err] eqn:E2; cbn; [|reflexivity].
  unfold header_additions, add_all.
  destruct (Headers hook !! ContentTypeHeader) as [val|]; reflexivity.
Qed.

(** C5: [redirect] first parses the plain concatenation of the upstream
    URL and the path, and returns the parser's error, calling nothing
    else, when that fails; otherwise it gives the URL the scheme [http]
    if it has none and builds the request from the hook's method, that
    URL and the hook's payload; the request it sends is the one built,
    up to its header. *)
Theorem redirect_builds_request (e : env) (p : Proxy) (hook : Hook)
    (path : string) :
  let target := upstreamURL p +:+ path in
  match e _ (url_Parse target) with
  | Err err =>
    run e (redirect p (Some hook) path) = ([asked e (url_Parse target)], Err err)
  | Ok u =>
    let u' := with_default_scheme u in
    let mk := http_NewRequest (RequestMethod hook) (URL_String u') (Payload hook) in
    (url.Scheme u = "" -> url.Scheme u' = "http")
    /\ (url.Scheme u <> "" -> u' = u)
    /\ url.Path u' = url.Path u /\ url.Host u' = url.Host u
    /\ match e _ mk with
       | Err err =>
         run e (redirect p (Some hook) path)
         = ([asked e (url_Parse target); asked e mk], Err err)
       | Ok req =>
         exists sent,
           run e (redirect p (Some hook) path)
           = ([asked e (url_Parse target); asked e mk;
               asked e (Client_Do (httpClient p) sent)],
              e _ (Client_Do (httpClient p) sent))
           /\ http.Method sent = http.Method req
           /\ http.URL sent = http.URL req
           /\ http.Body sent = http.Body req
       end
  end.
Proof.
  intros target. rewrite redirect_run. cbn zeta. fold target.
  destruct (e _ (url_Parse target)) as [u|err]; [|reflexivity].
  repeat split.
  - intros Hs. unfold with_default_scheme. by rewrite Hs.
  - intros Hs. unfold with_default_scheme.
    apply String.eqb_neq in Hs. by rewrite Hs.
  - unfold with_default_scheme. by case_if.
  - unfold with_default_scheme. by case_if.
  - destruct (e _ (http_NewRequest _ _ _)) as [req|err]; [|reflexivity].
    exists (add_all req (header_additions hook)). split; [reflexivity|].
    unfold add_all. generalize (header_additions hook). intros adds.
    revert req. induction adds as [|kv adds IH]; intros req; [done|].
    cbn [foldl]. destruct (IH (Request_Header_Add req kv.1 kv.2)) as (-> & -> & ->).
    done.
Qed.

Lemma additions_cons kv key value adds :
  additions key value (kv :: adds)
  = ((if decide (kv = (key, value)) then 1 else 0) + additions key value adds)%nat.
Proof.
  unfold additions. rewrite filter_cons. by case_decide.
Qed.

Lemma additions_perm key value adds1 adds2 :
  adds1 ≡ₚ adds2 -> additions key value adds1 = additions key value adds2.
Proof. intros Hp. unfold additions. by rewrite Hp. Qed.

Lemma additions_NoDup key value adds :
  NoDup adds ->
  additions key value adds = if decide ((key, value) ∈ adds) then 1%nat else 0%nat.
Proof.
  induction 1 as [|kv adds Hnotin Hnd IH]; [done|].
  rewrite additions_cons, IH.
  destruct (decide (kv = (key, value))) as [->|Hne].
  - rewrite (decide_True (P := (key, value) ∈ (key, value) :: adds))
      by (apply elem_of_cons; by left).
    by rewrite decide_False.
  - destruct (decide ((key, value) ∈ adds)) as [Hin|Hin].
    + by rewrite decide_True by (apply elem_of_cons; by right).
    + rewrite decide_False; [done|].
      intros [?|?]%elem_of_cons; [congruence|done].
Qed.

Lemma additions_map_range key value (m : gmap string string) :
  additions key value (map_range m)
  = if decide (m !! key = Some value) then 1%nat else 0%nat.
Proof.
  rewrite (additions_perm _ _ _ _ (map_range_perm m)).
  rewrite additions_NoDup by apply NoDup_map_to_list.
  destruct (decide (m !! key = Some value)) as [Hm|Hm].
  - rewrite decide_True; [done|]. by apply elem_of_map_to_list.
  - rewrite decide_False; [done|]. by rewrite elem_of_map_to_list.
Qed.

Lemma Header_Add_lookup (h : http.MIMEHeader) key value K :
  Header_Add h key value !!! K
  = ((h !!! K) ++ if decide (CanonicalMIMEHeaderKey key = K) then [value] else []).
Proof.
  unfold Header_Add. destruct (decide (CanonicalMIMEHeaderKey key = K)) as [->|Hne].
  - by rewrite lookup_total_insert_eq.
  - rewrite lookup_total_insert_ne by done. by rewrite app_nil_r.
Qed.

Lemma add_all_header (req : http.Request) adds K :
  http.Header (add_all req adds) !!! K
  = ((http.Header req !!! K)
     ++ (filter (fun kv => CanonicalMIMEHeaderKey kv.1 = K) adds).*2).
Proof.
  unfold add_all. revert req. induction adds as [|kv adds IH]; intros req.
  - cbn. by rewrite app_nil_r.
  - cbn [foldl]. rewrite IH. cbn [Request_Header_Add http.Header].
    rewrite Header_Add_lookup, filter_cons.
    destruct (decide (CanonicalMIMEHeaderKey kv.1 = K)).
    + by rewrite fmap_cons, <- app_assoc.
    + by rewrite app_nil_r.
Qed.

(** C6: once the request is built, [redirect] adds the hook's
    content-type header to it, if the hook has one, and then every header
    of the hook: the content-type pair is added twice, every other pair
    of the hook once, and nothing else.  The request sent carries, under
    each canonical key, the values added under it, in that order, after
    those it had. *)
Theorem redirect_propagates_headers (e : env) (p : Proxy) (hook : Hook)
    (path : string) (u : url.URL) (req : http.Request) :
  e _ (url_Parse (upstreamURL p +:+ path)) = Ok u ->
  e _ (http_NewRequest (RequestMethod hook)
         (URL_String (with_default_scheme u)) (Payload hook)) = Ok req ->
  let rest := map_range (Headers hook) in
  let adds :=
    match Headers hook !! ContentTypeHeader with
    | Some val => (ContentTypeHeader, val) :: rest
    | None => rest
    end in
  let sent := add_all req adds in
  rest ≡ₚ map_to_list (Headers hook)
  /\ last (run e (redirect p (Some hook) path)).1
     = Some (asked e (Client_Do (httpClient p) sent))
  /\ (forall key value,
        additions key value adds =
        if decide (Headers hook !! key = Some value)
        then if decide (key = ContentTypeHeader) then 2%nat else 1%nat
        else 0%nat)
  /\ (forall K,
        http.Header sent !!! K
        = http.Header req !!! K
          ++ (filter (fun kv => CanonicalMIMEHeaderKey kv.1 = K) adds).*2).
Proof.
  intros Hu Hreq rest adds sent. subst rest adds sent.
  fold (header_additions hook).
  split; [apply map_range_perm|]. split; [|split].
  - rewrite redirect_run. cbn zeta. rewrite Hu, Hreq. reflexivity.
  - intros key value. unfold header_additions.
    destruct (Headers hook !! ContentTypeHeader) as [val|] eqn:Hct.
    + rewrite additions_cons, additions_map_range.
      destruct (decide (Headers hook !! key = Some value)) as [Hk|Hk].
      * destruct (decide (key = ContentTypeHeader)) as [->|Hne].
        -- rewrite Hct in Hk. injection Hk as ->. by rewrite decide_True.
        -- rewrite decide_False; [done|]. congruence.
      * rewrite decide_False; [done|]. intros [= <- <-]. by rewrite Hct in Hk.
    + rewrite additions_map_range.
      destruct (decide (Headers hook !! key = Some value)) as [Hk|Hk]; [|done].
      rewrite decide_False; [done|]. intros ->. by rewrite Hct in Hk.
  - intros K. apply add_all_header.
Qed.

End redirect_props.


(** ** proxyRequest *)

Lemma run_perform_bind {X B : Type} (e : env) (c : call X) (f : X -> prog B) :
  run e (perform c ≫= f) =
  let '(tr, b) := run e (f (e X c)) in (asked e c :: tr, b).
Proof. reflexivity. Qed.

Lemma steps_app tr1 tr2 : steps (tr1 ++ tr2) = (steps tr1 ++ steps tr2).
Proof. unfold steps. apply filter_app. Qed.

Section proxyRequest_props.
Context `{GoLib}.

Lemma redirect_calls (e : env) (p : Proxy) (hook : Hook) (path : string) :
  let tr := (run e (redirect p (Some hook) path)).1 in
  steps tr = tr /\ forall w, foldl replay w tr = w.
Proof.
  rewrite redirect_run. cbn zeta.
  destruct (e _ (url_Parse _)) as [u|err]; [|by split].
  destruct (e _ (http_NewRequest _ _ _)) as [req|err]; by split.
Qed.

(** The calls of one request, in order. *)
Lemma proxyRequest_trace (e : env) (p : Proxy) (r : http.Request) :
  let path := url.Path (http.URL r) in
  let from := URL_String (http.URL r) in
  let init := providers_NewProvider (provider p) (secret p) in
  let log0 := asked e (log_Printf ("Proxying Request from '" +:+ from
                +:+ "', to upstream '" +:+ upstreamURL p +:+ path +:+ "'" +:+ LF)) in
  (run e (proxyRequest p r)).1 =
  if isPathAllowed p path then
    match e _ init with
    | Err err =>
      [log0; asked e init;
       asked e (log_Printf ("Error creating provider: " +:+ Error err));
       asked e (http_Error "Error creating Provider" 500)]
    | Ok prov =>
      let parse := parser_Parse r prov in
      match e _ parse with
      | Err err =>
        [log0; asked e init; asked e parse;
         asked e (log_Printf ("Eror Parsing Hook: " +:+ Error err));
         asked e (http_Error ("Error parsing Hook: " +:+ Error err) 400)]
      | Ok hook =>
        if Validate prov hook then
          let '(calls, r3) := run e (redirect p (Some hook) path) in
          [log0; asked e init; asked e parse] ++ calls ++
          match r3 with
          | Err errs =>
            [asked e (log_Printf ("Error Redirecting '" +:+ from
                        +:+ "' to upstream '" +:+ upstreamURL p +:+ path +:+ "': "
                        +:+ Error errs +:+ LF));
             asked e (http_Error ("Error Redirecting '" +:+ from
                        +:+ "' to upstream '" +:+ upstreamURL p +:+ path +:+ "'") 500)]
          | Ok resp =>
            if 400 <=? http.StatusCode resp then
              [asked e (log_Printf ("Error Redirecting '" +:+ from
                          +:+ "' to upstream '" +:+ upstreamURL p +:+ path
                          +:+ "', Upstream Redirect Status: "
                          +:+ http.Status resp +:+ LF));
               asked e (http_Error ("Error Redirecting '" +:+ from
                          +:+ "' to upstream '" +:+ upstreamURL p +:+ path
                          +:+ "' Upstream Redirect Status:"
                          +:+ http.Status resp) (http.StatusCode resp))]
            else
              [asked e (log_Printf ("Redirected incomming request '" +:+ from
                          +:+ "' to '" +:+ upstreamURL p +:+ path +:+ "' with Response: '"
                          +:+ http.Status resp +:+ "'" +:+ LF))]
          end
        else
          [log0; asked e init; asked e parse;
           asked e (log_Printf "Eror Validating Hook: <nil>");
           asked e (http_Error "Error validating Hook" 400)]
      end
    end
  else
    [log0;
     asked e (log_Printf ("Not allowed to proxy path: '" +:+ path +:+ "'"));
     asked e (http_Error ("Not allowed to proxy path: '" +:+ path +:+ "'") 403)].
Proof.
  intros path from init log0. unfold proxyRequest.
  fold path. fold from. rewrite run_perform_bind.
  destruct (isPathAllowed p path); cbn [negb]; [|reflexivity].
  rewrite run_perform_bind. fold init.
  destruct (e _ init) as [prov|err]; [|reflexivity].
  rewrite run_perform_bind.
  destruct (e _ (parser_Parse r prov)) as [hook|err]; [|reflexivity].
  destruct (Validate prov hook); cbn [negb]; [|reflexivity].
  rewrite run_bind.
  destruct (run e (redirect p (Some hook) path)) as [calls r3].
  destruct r3 as [resp|errs]; [destruct (400 <=? http.StatusCode resp)|];
    reflexivity.
Qed.

(** C1: [proxyRequest] goes through its steps in order and answers for
    the first that fails, after which it calls nothing but the logger:
    403 when the path is not allowed; 500 when the provider cannot be
    made; 400, with the parser's message in the body, when the hook does
    not parse; 400 when it does not validate; 500 when [redirect] returns
    an error; the upstream's status code when that is 400 or more; and
    otherwise nothing is written, which the server sends as 200 with an
    empty body. *)
Theorem proxyRequest_orchestration (e : env) (p : Proxy) (r : http.Request) :
  let path := url.Path (http.URL r) in
  let from := URL_String (http.URL r) in
  let tr := (run e (proxyRequest p r)).1 in
  let init := providers_NewProvider (provider p) (secret p) in
  if isPathAllowed p path then
    match e _ init with
    | Err err =>
      steps tr = [asked e init;
                  asked e (http_Error "Error creating Provider" 500)]
      /\ response tr = (500, "Error creating Provider" +:+ LF)
    | Ok prov =>
      let parse := parser_Parse r prov in
      match e _ parse with
      | Err err =>
        steps tr = [asked e init; asked e parse;
                    asked e (http_Error ("Error parsing Hook: " +:+ Error err) 400)]
        /\ response tr = (400, ("Error parsing Hook: " +:+ Error err) +:+ LF)
      | Ok hook =>
        if Validate prov hook then
          let '(calls, r3) := run e (redirect p (Some hook) path) in
          match r3 with
          | Err errs =>
            let body := "Error Redirecting '" +:+ from +:+ "' to upstream '"
                        +:+ upstreamURL p +:+ path +:+ "'" in
            steps tr = ([asked e init; asked e parse] ++ calls
                        ++ [asked e (http_Error body 500)])
            /\ response tr = (500, body +:+ LF)
          | Ok resp =>
            if 400 <=? http.StatusCode resp then
              let body := "Error Redirecting '" +:+ from +:+ "' to upstream '"
                          +:+ upstreamURL p +:+ path
                          +:+ "' Upstream Redirect Status:"
                          +:+ http.Status resp in
              steps tr = ([asked e init; asked e parse] ++ calls
                          ++ [asked e (http_Error body (http.StatusCode resp))])
              /\ response tr = (http.StatusCode resp, body +:+ LF)
            else
              steps tr = ([asked e init; asked e parse] ++ calls)
              /\ response tr = (200, "")
          end
        else
          steps tr = [asked e init; asked e parse;
                      asked e (http_Error "Error validating Hook" 400)]
          /\ response tr = (400, "Error validating Hook" +:+ LF)
      end
    end
  else
    steps tr = [asked e (http_Error ("Not allowed to proxy path: '" +:+ path +:+ "'") 403)]
    /\ response tr = (403, ("Not allowed to proxy path: '" +:+ path +:+ "'") +:+ LF).
Proof.
  intros path from tr init. subst tr. rewrite proxyRequest_trace.
  cbn zeta. fold path. fold from. fold init.
  destruct (isPathAllowed p path); [|by split].
  destruct (e _ init) as [prov|err]; [|by split].
  destruct (e _ (parser_Parse r prov)) as [hook|err]; [|by split].
  destruct (Validate prov hook); [|by split].
  pose proof (redirect_calls e p hook path) as [Hsteps Hreplay].
  destruct (run e (redirect p (Some hook) path)) as [calls r3].
  cbn [fst] in Hsteps, Hreplay.
  assert (Hmid : forall pre post,
    steps ([asked e (log_Printf pre); asked e init; asked e (parser_Parse r prov)]
           ++ calls ++ post)
    = [asked e init; asked e (parser_Parse r prov)] ++ calls ++ steps post).
  { intros pre post. by rewrite !steps_app, Hsteps. }
  assert (Hresp : forall pre post,
    response ([asked e (log_Printf pre); asked e init;
               asked e (parser_Parse r prov)] ++ calls ++ post)
    = response post).
  { intros pre post. unfold response.
    by rewrite !foldl_app, Hreplay. }
  destruct r3 as [resp|errs]; [destruct (400 <=? http.StatusCode resp)|];
    rewrite Hmid, Hresp; (split; [|reflexivity]); cbn; by rewrite ?app_nil_r.
Qed.

(** C8: a request rejected because its path is not allowed (403), or
    because the provider does not validate its hook (400), makes none of
    the calls of [redirect]: the upstream URL is not parsed, no outbound
    request is built, and the client sends nothing. *)
Theorem rejected_request_never_reaches_upstream (e : env) (p : Proxy)
    (r : http.Request) :
  let path := url.Path (http.URL r) in
  let tr := (run e (proxyRequest p r)).1 in
  isPathAllowed p path = false
  \/ (exists prov hook,
        e _ (providers_NewProvider (provider p) (secret p)) = Ok prov
        /\ e _ (parser_Parse r prov) = Ok hook
        /\ Validate prov hook = false) ->
  (forall ev, ev ∈ tr -> is_redirect_call ev = false /\ is_Client_Do ev = false)
  /\ (response tr).1 = if isPathAllowed p path then 400 else 403.
Proof.
  intros path tr Hrej. subst tr. rewrite proxyRequest_trace.
  cbn zeta. fold path.
  assert (Hall : forall tr : list event,
    forallb (fun ev => negb (is_redirect_call ev) && negb (is_Client_Do ev)) tr = true ->
    forall ev, ev ∈ tr -> is_redirect_call ev = false /\ is_Client_Do ev = false).
  { intros tr Htr ev Hev. rewrite forallb_forall in Htr.
    apply list_elem_of_In, Htr in Hev.
    apply andb_true_iff in Hev as [?%negb_true_iff ?%negb_true_iff]. done. }
  destruct (isPathAllowed p path) eqn:Hallowed.
  - destruct Hrej as [?|(prov & hook & -> & -> & ->)]; [done|].
    split; [by apply Hall|reflexivity].
  - split; [by apply Hall|reflexivity].
Qed.

End proxyRequest_props.


Section NewProxy_props.
Context `{GoLib}.

(** C9: the Proxy that [NewProxy] returns holds the four arguments as
    they were passed, not trimmed, and [redirect] prepends that upstream
    URL as it is to the path it parses. *)
Theorem NewProxy_stores_verbatim (u : string) (a : goslice string)
    (pr s : string) (px : Proxy) :
  NewProxy u a pr s = Ok px ->
  provider px = pr /\ upstreamURL px = u /\ allowedPaths px = a /\ secret px = s
  /\ forall (e : env) (hook : Hook) (path : string),
       exists tr,
         (run e (redirect px (Some hook) path)).1
         = asked e (url_Parse (u +:+ path)) :: tr.
Proof.
  unfold NewProxy.
  repeat case_if; try discriminate. destruct a as [allowed|]; [|discriminate].
  intros [= <-]. cbn [provider upstreamURL allowedPaths secret]. repeat split.
  intros e hook path. rewrite redirect_run.
  cbn [provider upstreamURL allowedPaths secret]. cbn zeta.
  destruct (e _ (url_Parse _)) as [u'|err]; [|by eexists].
  destruct (e _ (http_NewRequest _ _ _)) as [req|err]; by eexists.
Qed.

End NewProxy_props.

(** ** The theorems at example values *)

Lemma NewProxy_stores_verbatim_witness :
  NewProxy " http://u" (Some ["/repo1"]) "github" "s3cret"
  = Ok {| provider := "github"; upstreamURL := " http://u";
          allowedPaths := Some ["/repo1"]; secret := "s3cret";
          httpClient := {| http.Timeout := 60000000000 |} |}
  /\ exists tr,
       (run (exampleEnv true 200 "200 OK")
            (redirect {| provider := "github"; upstreamURL := " http://u";
                         allowedPaths := Some ["/repo1"]; secret := "s3cret";
                         httpClient := {| http.Timeout := 60000000000 |} |}
                      (Some exampleHook) "/repo1")).1
       = asked (exampleEnv true 200 "200 OK")
               (url_Parse (" http://u" +:+ "/repo1")) :: tr.
Proof.
  split; [reflexivity|].
  exact (proj2 (proj2 (proj2 (proj2
    (NewProxy_stores_verbatim " http://u" (Some ["/repo1"]) "github" "s3cret"
       _ eq_refl))))
    (exampleEnv true 200 "200 OK") exampleHook "/repo1").
Defined.

Lemma redirect_nil_hook_witness :
  run (exampleEnv true 200 "200 OK") (redirect (exampleProxy []) None "/x")
  = ([], Err (errors_New "Cannot redirect with nil Hook")).
Proof.
  exact (redirect_nil_hook (exampleEnv true 200 "200 OK") (exampleProxy []) "/x").
Defined.

Lemma redirect_builds_request_witness :
  exists sent,
    run (exampleEnv true 200 "200 OK")
        (redirect (exampleProxy []) (Some exampleHook) "/repo1")
    = ([asked (exampleEnv true 200 "200 OK") (url_Parse "//upstream:8080/repo1");
        asked (exampleEnv true 200 "200 OK")
              (http_NewRequest "POST" "http://upstream:8080/repo1"
                               [Byte.x7b; Byte.x7d]);
        asked (exampleEnv true 200 "200 OK")
              (Client_Do (httpClient (exampleProxy [])) sent)],
       Ok {| http.Status := "200 OK"; http.StatusCode := 200 |})
    /\ http.Method sent = "POST"
    /\ http.Body sent = [Byte.x7b; Byte.x7d].
Proof.
  destruct (redirect_builds_request (exampleEnv true 200 "200 OK")
              (exampleProxy []) exampleHook "/repo1")
    as (_ & _ & _ & _ & sent & Hrun & Hmethod & _ & Hbody).
  exists sent. split; [exact Hrun|]. split; [exact Hmethod|exact Hbody].
Defined.

Lemma redirect_propagates_headers_witness :
  let e := exampleEnv true 200 "200 OK" in
  let req := {| http.Method := "POST";
                http.URL := exampleURL "http://upstream:8080/repo1";
                http.Header := ∅; http.Body := [Byte.x7b; Byte.x7d] |} in
  let adds := ("Content-Type", "application/json")
              :: map_to_list (Headers exampleHook) in
  e _ (url_Parse (upstreamURL (exampleProxy []) +:+ "/repo1"))
  = Ok (exampleURL "/repo1")
  /\ e _ (http_NewRequest (RequestMethod exampleHook)
            (URL_String (with_default_scheme (exampleURL "/repo1")))
            (Payload exampleHook)) = Ok req
  /\ last (run e (redirect (exampleProxy []) (Some exampleHook) "/repo1")).1
     = Some (asked e (Client_Do (httpClient (exampleProxy []))
                                (add_all req adds)))
  /\ additions "Content-Type" "application/json" adds = 2%nat
  /\ additions "X-Hub-Signature" "sha1=0a1b" adds = 1%nat
  /\ http.Header (add_all req adds) !!! "Content-Type"
     = ["application/json"; "application/json"].
Proof.
  intros e req adds.
  assert (Hu : e _ (url_Parse (upstreamURL (exampleProxy []) +:+ "/repo1"))
               = Ok (exampleURL "/repo1")) by reflexivity.
  assert (Hreq : e _ (http_NewRequest (RequestMethod exampleHook)
                        (URL_String (with_default_scheme (exampleURL "/repo1")))
                        (Payload exampleHook)) = Ok req) by reflexivity.
  split; [exact Hu|]. split; [exact Hreq|].
  destruct (redirect_propagates_headers e (exampleProxy []) exampleHook "/repo1"
              (exampleURL "/repo1") req Hu Hreq)
    as (_ & Hlast & Hcount & _).
  split; [exact Hlast|]. split; [|split].
  - exact (Hcount "Content-Type" "application/json").
  - exact (Hcount "X-Hub-Signature" "sha1=0a1b").
  - vm_compute. reflexivity.
Defined.

Lemma rejected_request_never_reaches_upstream_witness :
  let e := exampleEnv false 200 "200 OK" in
  let p := exampleProxy ["/repo1"] in
  (isPathAllowed p "/repo2" = false
   /\ (forall ev, ev ∈ (run e (proxyRequest p (exampleRequest "/repo2"))).1 ->
         is_redirect_call ev = false /\ is_Client_Do ev = false)
   /\ (response (run e (proxyRequest p (exampleRequest "/repo2"))).1).1 = 403)
  /\ (Validate {| Validate := fun _ => false |} exampleHook = false
      /\ (forall ev, ev ∈ (run e (proxyRequest p (exampleRequest "/repo1"))).1 ->
            is_redirect_call ev = false /\ is_Client_Do ev = false)
      /\ (response (run e (proxyRequest p (exampleRequest "/repo1"))).1).1 = 400).
Proof.
  intros e p. split.
  - assert (Hpath : isPathAllowed p "/repo2" = false) by reflexivity.
    split; [exact Hpath|].
    exact (rejected_request_never_reaches_upstream e p (exampleRequest "/repo2")
             (or_introl Hpath)).
  - split; [reflexivity|].
    refine (rejected_request_never_reaches_upstream e p (exampleRequest "/repo1")
              (or_intror _)).
    exists {| Validate := fun _ => false |}, exampleHook.
    repeat split; reflexivity.
Defined.

Lemma proxyRequest_orchestration_witness :
  let e := exampleEnv true 503 "503 Service Unavailable" in
  let p := exampleProxy ["/repo1"] in
  (response (run e (proxyRequest p (exampleRequest "/repo1"))).1).1 = 503.
Proof.
  intros e p.
  exact (f_equal fst (proj2
    (proxyRequest_orchestration e p (exampleRequest "/repo1")))).
Defined.

(** ** The model on concrete inputs *)

Example TrimSpace_ascii : strings.TrimSpace "  /foo/ " = "/foo/".
Proof. reflexivity. Qed.

Example TrimSpace_unicode :
  strings.TrimSpace (nbsp +:+ " /f" +:+ emsp +:+ "oo/ " +:+ emsp +:+ " ")
  = "/f" +:+ emsp +:+ "oo/".
Proof. reflexivity. Qed.

Example TrimSpace_invalid_utf8 :
  strings.TrimSpace (String "226"%char (String "128"%char " a "))
  = String "226"%char (String "128"%char " a").
Proof. reflexivity. Qed.

Example whitespace_only_mixed :
  whitespace_only (" " +:+ nbsp +:+ String "009"%char emsp).
Proof. reflexivity. Qed.

Example normalize_inner_space : normalize "/foo /" = "/foo ".
Proof. reflexivity. Qed.

Example end_to_end_accepted :
  response (run (exampleEnv true 200 "200 OK")
                (proxyRequest (exampleProxy ["/repo1"]) (exampleRequest "/repo1"))).1
  = (200, "").
Proof. reflexivity. Qed.

Example end_to_end_upstream_503 :
  response (run (exampleEnv true 503 "503 Service Unavailable")
                (proxyRequest (exampleProxy ["/repo1"]) (exampleRequest "/repo1"))).1
  = (503, "Error Redirecting '//upstream:8080/repo1' to upstream '//upstream:8080/repo1' Upstream Redirect Status:503 Service Unavailable" +:+ LF).
Proof. reflexivity. Qed.

(** * Further properties *)

(** ** isPathAllowed: what the decision depends on *)

Lemma isPathAllowed_range_normal_form allowed path1 path2 :
  normalize path1 = normalize path2 ->
  isPathAllowed_range allowed path1 = isPathAllowed_range allowed path2.
Proof.
  intros Heq. induction allowed as [|p rest IH]; [done|].
  cbn [isPathAllowed_range]. fold (normalize path1). fold (normalize path2).
  by rewrite Heq, IH.
Qed.

(** X1: the decision depends on the path through its normal form only:
    two paths with the same normal form are both allowed or both rejected,
    whatever the allow-list. *)
Theorem isPathAllowed_same_normal_form (px : Proxy) (path1 path2 : string) :
  normalize path1 = normalize path2 ->
  isPathAllowed px path1 = isPathAllowed px path2.
Proof.
  intros Heq. unfold isPathAllowed. case_if; [done|].
  by apply isPathAllowed_range_normal_form.
Qed.

Lemma isPathAllowed_same_normal_form_witness :
  normalize ("  /repo1/" +:+ nbsp) = normalize "/repo1"
  /\ isPathAllowed (exampleProxy ["/repo2"; "/repo1"]) ("  /repo1/" +:+ nbsp)
     = isPathAllowed (exampleProxy ["/repo2"; "/repo1"]) "/repo1".
Proof.
  assert (H : normalize ("  /repo1/" +:+ nbsp) = normalize "/repo1") by reflexivity.
  split; [exact H|].
  exact (isPathAllowed_same_normal_form (exampleProxy ["/repo2"; "/repo1"]) _ _ H).
Defined.

(** X2: a non-empty allow-list only grows with its entries: when every
    entry of a non-empty list has its normal form among those of another
    list, every path the first allows the second allows too.  So the
    order of the entries, their repetition, and the white space and
    trailing ["/"] the normal form drops do not matter. *)
Theorem isPathAllowed_monotone (px1 px2 : Proxy) (path : string) :
  elems (allowedPaths px1) <> [] ->
  (forall q, q ∈ elems (allowedPaths px1) ->
     exists q', q' ∈ elems (allowedPaths px2) /\ normalize q' = normalize q) ->
  isPathAllowed px1 path = true -> isPathAllowed px2 path = true.
Proof.
  intros Hne Hsub. rewrite (isPathAllowed_nonempty px1) by done.
  intros (q & Hq & Hn)%isPathAllowed_range_spec.
  destruct (Hsub q Hq) as (q' & Hq' & Hn').
  rewrite isPathAllowed_nonempty.
  - apply isPathAllowed_range_spec. exists q'. by rewrite Hn'.
  - intros Hnil. rewrite Hnil in Hq'. by apply elem_of_nil in Hq'.
Qed.

Lemma isPathAllowed_monotone_witness :
  isPathAllowed (exampleProxy ["/a"; "/b"]) "/b/" = true
  /\ isPathAllowed (exampleProxy [" /b"; "/c"; "/a/"; "/b"]) "/b/" = true.
Proof.
  assert (H : isPathAllowed (exampleProxy ["/a"; "/b"]) "/b/" = true) by reflexivity.
  split; [exact H|].
  refine (isPathAllowed_monotone (exampleProxy ["/a"; "/b"])
            (exampleProxy [" /b"; "/c"; "/a/"; "/b"]) "/b/" _ _ H).
  - discriminate.
  - intros q Hq. cbn in Hq.
    apply elem_of_cons in Hq as [->|Hq];
      [|apply elem_of_cons in Hq as [->|Hq]; [|by apply elem_of_nil in Hq]].
    + exists "/a/". split; [|reflexivity]. cbn. rewrite !elem_of_cons. tauto.
    + exists " /b". split; [|reflexivity]. cbn. rewrite !elem_of_cons. tauto.
Defined.

(** Appending to a string that has a rune that is not white space leaves
    its left trim in place. *)
Lemma TrimLeftFunc_app_tail f s x u :
  byte_val x < utf8.RuneSelf -> f (byte_val x) = false ->
  strings.TrimLeftFunc (s +:+ String x u) f
  = strings.TrimLeftFunc s f +:+ String x u.
Proof.
  intros Hx Hf. unfold strings.TrimLeftFunc, strings.indexFunc.
  rewrite indexFunc_range_app by (rewrite ?Hf; done || lia).
  rewrite len_app. pose proof (len_nonneg s). pose proof (len_nonneg (String x u)).
  destruct (indexFunc_range_bounds f false s 0 0 ltac:(lia)) as [->|Hb].
  - rewrite Z.eqb_refl. case_if; [lia|].
    rewrite Z.add_0_l. apply (slice_suffix s (String x u)).
  - repeat case_if; try lia.
    apply (slice_app_to_end s (String x u)). lia.
Qed.

Lemma app_assoc_str (a b c : string) : (a +:+ b) +:+ c = a +:+ (b +:+ c).
Proof.
  induction a as [|x a IH]; rewrite ?app_nil_l_str, ?app_cons_str;
    [done|by rewrite IH].
Qed.

Lemma app_empty_r_str (a : string) : a +:+ "" = a.
Proof.
  induction a as [|x a IH]; rewrite ?app_nil_l_str, ?app_cons_str;
    [done|by rewrite IH].
Qed.

Lemma string_last_split (s : string) :
  s <> "" -> exists w c, s = w +:+ String c "" /\ idx s (len s - 1) = byte_val c.
Proof.
  induction s as [|a s IH]; [done|]. intros _.
  destruct s as [|b s].
  - exists "", a. split; reflexivity.
  - destruct (IH ltac:(done)) as (w & c & Hw & Hc).
    exists (String a w), c. rewrite app_cons_str, <- Hw. split; [done|].
    rewrite (len_cons a). set (t := String b s) in *.
    assert (1 <= len t) by (unfold t; rewrite len_cons; pose proof (len_nonneg s); lia).
    replace (1 + len t - 1) with (1 + (len t - 1)) by lia.
    rewrite idx_succ by lia. done.
Qed.

(** X3: no prefix matching.  When [p] is the only entry, no path that
    extends [p] by a tail is allowed if the tail begins with a byte below
    [RuneSelf] that is not white space and ends with one that is neither
    white space nor ["/"]: ["/foo"] allows neither ["/foo/bar"] nor
    ["/foobar"]. *)
Theorem isPathAllowed_no_prefix_match (px : Proxy) (p tail : string) :
  elems (allowedPaths px) = [p] ->
  tail <> "" ->
  idx tail 0 < utf8.RuneSelf -> unicode.IsSpace (idx tail 0) = false ->
  idx tail (len tail - 1) < utf8.RuneSelf ->
  unicode.IsSpace (idx tail (len tail - 1)) = false ->
  idx tail (len tail - 1) <> byte_val "/" ->
  isPathAllowed px (p +:+ tail) = false.
Proof.
  intros Honly Hne Ha Hasp Hz Hzsp Hslash.
  destruct (string_last_split tail Hne) as (w & c & -> & Hc).
  rewrite Hc in *. clear Hc.
  assert (Hn : normalize (p +:+ w +:+ String c "")
               = strings.TrimLeftFunc (p +:+ w) unicode.IsSpace +:+ String c "").
  { unfold normalize. rewrite <- app_assoc_str, TrimSpace_app by done.
    apply TrimSuffix_other_last. intros ->. done. }
  assert (Hlen : len (strings.TrimLeftFunc p unicode.IsSpace)
                 <= len (strings.TrimLeftFunc (p +:+ w) unicode.IsSpace)).
  { destruct w as [|x u].
    - by rewrite app_empty_r_str.
    - rewrite app_cons_str in Ha, Hasp. change (idx (String x _) 0) with (byte_val x) in *.
      rewrite TrimLeftFunc_app_tail, len_app by done.
      pose proof (len_nonneg (String x u)). lia. }
  apply not_true_is_false. rewrite isPathAllowed_nonempty by (by rewrite Honly).
  rewrite Honly. intros (q & Hq & Heq)%isPathAllowed_range_spec.
  apply list_elem_of_singleton in Hq as ->.
  pose proof (normalize_len p) as Hle.
  rewrite Heq, Hn, len_app in Hle. change (len (String c "")) with 1 in Hle. lia.
Qed.

Lemma isPathAllowed_no_prefix_match_witness :
  isPathAllowed (exampleProxy ["/foo"]) ("/foo" +:+ "/bar") = false
  /\ isPathAllowed (exampleProxy [" /foo/ "]) (" /foo/ " +:+ "bar") = false.
Proof.
  split.
  - apply (isPathAllowed_no_prefix_match (exampleProxy ["/foo"]) "/foo" "/bar");
      first [reflexivity | discriminate | by vm_compute].
  - apply (isPathAllowed_no_prefix_match (exampleProxy [" /foo/ "]) " /foo/ " "bar");
      first [reflexivity | discriminate | by vm_compute].
Defined.

(** ** NewProxy: errors, and the Proxy it builds *)

Lemma blank_all_space s : (len (strings.TrimSpace s) =? 0) = all_space s.
Proof.
  unfold all_space. pose proof (blank_whitespace_only s) as Hiff.
  unfold blank, whitespace_only in Hiff.
  destruct (len (strings.TrimSpace s) =? 0) eqn:E.
  - apply Z.eqb_eq in E. symmetry. by apply Hiff.
  - apply Z.eqb_neq in E. symmetry. apply not_true_is_false. by rewrite <- Hiff.
Qed.

(** X4: the error of [NewProxy] names the first argument at fault, in the
    order secret, upstream URL, provider, allowed paths, where a string is
    at fault when all its runes are white space and the allowed paths
    when they are the nil slice. *)
Theorem NewProxy_error_precedence (u : string) (a : goslice string)
    (pr s : string) (err : error) :
  NewProxy u a pr s = Err err ->
  Error err =
    (if all_space s then "Cannot create Proxy with empty secret"
     else if all_space u then "Cannot create Proxy with empty upstreamURL"
     else if all_space pr then "Cannot create Proxy with empty provider"
     else "Cannot create Proxy with nil allowedPaths")
  /\ (all_space s = false -> all_space u = false -> all_space pr = false ->
      a = None).
Proof.
  unfold NewProxy. rewrite !blank_all_space.
  destruct (all_space s); [by intros [= <-]|].
  destruct (all_space u); [by intros [= <-]|].
  destruct (all_space pr); [by intros [= <-]|].
  destruct a; [discriminate|]. by intros [= <-].
Qed.

Lemma NewProxy_error_precedence_witness :
  NewProxy " " None "github" ("s3cret")
  = Err (errors_New "Cannot create Proxy with empty upstreamURL")
  /\ Error (errors_New "Cannot create Proxy with empty upstreamURL")
     = "Cannot create Proxy with empty upstreamURL".
Proof.
  assert (H : NewProxy " " None "github" "s3cret"
              = Err (errors_New "Cannot create Proxy with empty upstreamURL"))
    by reflexivity.
  split; [exact H|].
  exact (proj1 (NewProxy_error_precedence " " None "github" "s3cret" _ H)).
Defined.

(** X5: a Proxy built by [NewProxy] from the list [l] of allowed paths
    allows a path iff [l] is empty or has an entry with the normal form
    of the path. *)
Theorem NewProxy_isPathAllowed (u : string) (l : list string) (pr s : string)
    (px : Proxy) (path : string) :
  NewProxy u (Some l) pr s = Ok px ->
  (isPathAllowed px path = true <->
   l = [] \/ exists q, q ∈ l /\ normalize q = normalize path).
Proof.
  unfold NewProxy. repeat case_if; try discriminate. intros [= <-].
  destruct l as [|q0 l].
  - split; [by left|done].
  - rewrite isPathAllowed_nonempty by done. cbn [allowedPaths elems].
    rewrite isPathAllowed_range_spec. split; [by right|].
    by intros [?|?].
Qed.

Lemma NewProxy_isPathAllowed_witness :
  NewProxy "//upstream:8080" (Some ["/repo1"]) "github" "s3cret"
  = Ok (exampleProxy ["/repo1"])
  /\ isPathAllowed (exampleProxy ["/repo1"]) " /repo1/" = true.
Proof.
  assert (H : NewProxy "//upstream:8080" (Some ["/repo1"]) "github" "s3cret"
              = Ok (exampleProxy ["/repo1"])) by reflexivity.
  split; [exact H|].
  apply (NewProxy_isPathAllowed _ _ _ _ _ " /repo1/" H).
  right. exists "/repo1". split; [apply elem_of_cons; by left|reflexivity].
Defined.

(** ** redirect: the outbound call and the headers it carries *)

Section redirect_more.
Context `{GoLib}.

(** X6: whenever [redirect] returns a response, it called the proxy's own
    client exactly once and the response is the answer to that call:
    there is no retry and no response of its own making. *)
Theorem redirect_success_is_the_clients (e : env) (p : Proxy)
    (hook : option Hook) (path : string) (resp : http.Response) :
  (run e (redirect p hook path)).2 = Ok resp ->
  exists req,
    filter (fun ev => is_Client_Do ev = true) (run e (redirect p hook path)).1
    = [asked e (Client_Do (httpClient p) req)]
    /\ e _ (Client_Do (httpClient p) req) = Ok resp.
Proof.
  destruct hook as [hook|]; [|discriminate].
  rewrite redirect_run. cbn zeta.
  destruct (e _ (url_Parse _)) as [u|err]; [|discriminate].
  destruct (e _ (http_NewRequest _ _ _)) as [req|err]; [|discriminate].
  cbn [snd fst]. intros Hresp. eexists. split; [reflexivity|exact Hresp].
Qed.

Lemma NoDup_all_equal {A : Type} (l : list A) (a : A) :
  NoDup l -> a ∈ l -> (forall x, x ∈ l -> x = a) -> l = [a].
Proof.
  intros Hnd Hin Hall. destruct l as [|x l]; [by apply elem_of_nil in Hin|].
  assert (x = a) as -> by (apply Hall, elem_of_cons; by left).
  destruct l as [|y l]; [done|].
  assert (y = a) as -> by (apply Hall; rewrite !elem_of_cons; tauto).
  apply NoDup_cons in Hnd as [Hnotin _]. exfalso. apply Hnotin.
  apply elem_of_cons. by left.
Qed.

Lemma elem_of_map_range (m : gmap string string) k v :
  (k, v) ∈ map_range m <-> m !! k = Some v.
Proof. by rewrite (map_range_perm m), elem_of_map_to_list. Qed.

Lemma NoDup_map_range (m : gmap string string) : NoDup (map_range m).
Proof. rewrite (map_range_perm m). apply NoDup_map_to_list. Qed.

Lemma elem_of_header_additions hook k v :
  (k, v) ∈ header_additions hook <-> Headers hook !! k = Some v.
Proof.
  unfold header_additions.
  destruct (Headers hook !! ContentTypeHeader) as [val|] eqn:Hct.
  - rewrite elem_of_cons, elem_of_map_range. split; [|by right].
    intros [[= -> ->]|?]; done.
  - apply elem_of_map_range.
Qed.

(** X7: no header of the hook is lost and none is made up.  The request
    [redirect] sends carries every value of the hook's headers under the
    canonical form of its key; every value it carries under a key was in
    the request as built or is the value of a hook header with that
    canonical key; and the values the request had stay in front. *)
Theorem redirect_headers_none_lost (e : env) (p : Proxy) (hook : Hook)
    (path : string) (u : url.URL) (req : http.Request) :
  e _ (url_Parse (upstreamURL p +:+ path)) = Ok u ->
  e _ (http_NewRequest (RequestMethod hook)
         (URL_String (with_default_scheme u)) (Payload hook)) = Ok req ->
  exists sent,
    last (run e (redirect p (Some hook) path)).1
    = Some (asked e (Client_Do (httpClient p) sent))
    /\ (forall k v, Headers hook !! k = Some v ->
          v ∈ http.Header sent !!! CanonicalMIMEHeaderKey k)
    /\ (forall K v, v ∈ http.Header sent !!! K ->
          v ∈ http.Header req !!! K
          \/ exists k, CanonicalMIMEHeaderKey k = K /\ Headers hook !! k = Some v)
    /\ (forall K, http.Header req !!! K `prefix_of` http.Header sent !!! K).
Proof.
  intros Hu Hreq. exists (add_all req (header_additions hook)).
  split; [|split; [|split]].
  - rewrite redirect_run. cbn zeta. rewrite Hu, Hreq. reflexivity.
  - intros k v Hk. rewrite add_all_header, elem_of_app. right.
    apply list_elem_of_fmap. exists (k, v). split; [done|].
    apply list_elem_of_filter. split; [done|]. by apply elem_of_header_additions.
  - intros K v. rewrite add_all_header, elem_of_app.
    intros [?|Hin]; [by left|]. right.
    apply list_elem_of_fmap in Hin as ([k v'] & -> & Hin).
    apply list_elem_of_filter in Hin as [Hcanon Hin].
    exists k. split; [done|]. by apply elem_of_header_additions.
  - intros K. rewrite add_all_header. by eexists.
Qed.

(** X8: a hook header whose key shares its canonical form with no other
    key of the hook arrives once, after the values the request had under
    that key; the content-type header arrives twice. *)
Theorem redirect_header_exact (e : env) (p : Proxy) (hook : Hook)
    (path : string) (u : url.URL) (req : http.Request) (k v : string) :
  e _ (url_Parse (upstreamURL p +:+ path)) = Ok u ->
  e _ (http_NewRequest (RequestMethod hook)
         (URL_String (with_default_scheme u)) (Payload hook)) = Ok req ->
  Headers hook !! k = Some v ->
  (forall k', is_Some (Headers hook !! k') ->
     CanonicalMIMEHeaderKey k' = CanonicalMIMEHeaderKey k -> k' = k) ->
  exists sent,
    last (run e (redirect p (Some hook) path)).1
    = Some (asked e (Client_Do (httpClient p) sent))
    /\ http.Header sent !!! CanonicalMIMEHeaderKey k
       = http.Header req !!! CanonicalMIMEHeaderKey k
         ++ (if decide (k = ContentTypeHeader) then [v; v] else [v]).
Proof.
  intros Hu Hreq Hk Huniq. exists (add_all req (header_additions hook)).
  split.
  { rewrite redirect_run. cbn zeta. rewrite Hu, Hreq. reflexivity. }
  rewrite add_all_header. f_equal.
  assert (Hrange :
    filter (fun kv : string * string =>
              CanonicalMIMEHeaderKey kv.1 = CanonicalMIMEHeaderKey k)
           (map_range (Headers hook)) = [(k, v)]).
  { apply NoDup_all_equal.
    - apply NoDup_filter, NoDup_map_range.
    - apply list_elem_of_filter. split; [done|]. by apply elem_of_map_range.
    - intros [k' v'] [Hcanon Hin]%list_elem_of_filter.
      apply elem_of_map_range in Hin. cbn in Hcanon.
      assert (k' = k) as -> by (by apply Huniq).
      congruence. }
  unfold header_additions.
  destruct (Headers hook !! ContentTypeHeader) as [val|] eqn:Hct.
  - rewrite filter_cons. cbn [fst].
    destruct (decide (k = ContentTypeHeader)) as [->|Hne].
    + rewrite decide_True by done. rewrite Hrange.
      rewrite Hct in Hk. by injection Hk as ->.
    + rewrite decide_False, Hrange; [done|].
      intros Hcanon. apply Hne. symmetry. by apply Huniq.
  - rewrite Hrange. rewrite decide_False; [done|]. intros ->. congruence.
Qed.

End redirect_more.

(** ** proxyRequest: what every run looks like *)

Section proxyRequest_more.
Context `{GoLib}.

(** The cases of a run of [proxyRequest], with the calls of [redirect]
    spelled out. *)
Ltac trace_cases e p r :=
  rewrite (proxyRequest_trace e p r); cbn zeta;
  destruct (isPathAllowed p (url.Path (http.URL r))) eqn:Hallowed;
  [ destruct (e _ (providers_NewProvider (provider p) (secret p)))
      as [prov|err] eqn:Hinit;
    [ destruct (e _ (parser_Parse r prov)) as [hook|err] eqn:Hparse;
      [ destruct (Validate prov hook) eqn:Hvalid;
        [ rewrite redirect_run; cbn zeta;
          destruct (e _ (url_Parse (upstreamURL p +:+ url.Path (http.URL r))))
            as [u|err] eqn:Hu;
          [ destruct (e _ (http_NewRequest (RequestMethod hook)
                             (URL_String (with_default_scheme u)) (Payload hook)))
              as [req|err] eqn:Hreq;
            [ destruct (e _ (Client_Do (httpClient p)
                               (add_all req (header_additions hook))))
                as [resp|err] eqn:Hdo;
              [ destruct (400 <=? http.StatusCode resp) eqn:Hcode | ]
            | ]
          | ]
        | ]
      | ]
    | ]
  | ].

(** X9: every request is answered at most once and reaches the upstream
    at most once.  Either no error response is written, and the caller
    gets 200 with an empty body, or exactly one is written, with a status
    of 400 or more, and the caller gets that status and the message
    followed by a line feed; the client is called at most once. *)
Theorem proxyRequest_answers_once (e : env) (p : Proxy) (r : http.Request) :
  let tr := (run e (proxyRequest p r)).1 in
  (length (filter (fun ev => is_Client_Do ev = true) tr) <= 1)%nat
  /\ ((filter (fun ev => is_http_Error ev = true) tr = []
       /\ response tr = (200, ""))
      \/ exists msg code,
           filter (fun ev => is_http_Error ev = true) tr
           = [asked e (http_Error msg code)]
           /\ response tr = (code, msg +:+ LF) /\ 400 <= code).
Proof.
  intros tr. subst tr. trace_cases e p r.
  all: split; [apply Nat.leb_le; reflexivity|].
  all: first [ left; split; reflexivity
             | right; eexists _, _; split; [reflexivity|];
               split; [reflexivity|]; first [done | by apply Z.leb_le] ].
Qed.

(** X10: every request leaves two lines in the log, one on arrival and
    one for the outcome; the calls between them neither log nor answer,
    and an error response, if any, is the last call, right after the
    second line. *)
Theorem proxyRequest_logs_twice (e : env) (p : Proxy) (r : http.Request) :
  let tr := (run e (proxyRequest p r)).1 in
  exists arrival mid outcome final,
    tr = [asked e (log_Printf arrival)] ++ mid
         ++ [asked e (log_Printf outcome)] ++ final
    /\ (forall ev, ev ∈ mid -> is_log ev = false /\ is_http_Error ev = false)
    /\ (final = [] \/ exists msg code, final = [asked e (http_Error msg code)]).
Proof.
  intros tr. subst tr.
  assert (Hmid : forall mid : list event,
    forallb (fun ev => negb (is_log ev) && negb (is_http_Error ev)) mid = true ->
    forall ev, ev ∈ mid -> is_log ev = false /\ is_http_Error ev = false).
  { intros mid Hall ev Hev. rewrite forallb_forall in Hall.
    apply list_elem_of_In, Hall in Hev.
    by apply andb_true_iff in Hev as [?%negb_true_iff ?%negb_true_iff]. }
  trace_cases e p r.
  1: eexists _, [_; _; _; _; _], _, _.
  2: eexists _, [_; _; _; _; _], _, _.
  3: eexists _, [_; _; _; _; _], _, _.
  4: eexists _, [_; _; _; _], _, _.
  5: eexists _, [_; _; _], _, _.
  6: eexists _, [_; _], _, _.
  7: eexists _, [_; _], _, _.
  8: eexists _, [_], _, _.
  9: eexists _, [], _, _.
  all: (split; [reflexivity|]); (split; [by apply Hmid|]).
  all: first [by left | right; by eexists _, _].
Qed.

Lemma isPathAllowed_with_secret s' p path :
  isPathAllowed (with_secret s' p) path = isPathAllowed p path.
Proof. reflexivity. Qed.

Lemma redirect_with_secret s' p hook path :
  redirect (with_secret s' p) hook path = redirect p hook path.
Proof. reflexivity. Qed.

(** X11: the secret goes to [providers.NewProvider] and nowhere else.
    For two secrets to which the providers package gives the same answer,
    the runs of a request are the same but for the call that constructs
    the provider: the log, the response, and what is sent upstream do not
    depend on the secret. *)
Theorem proxyRequest_secret_confined (e : env) (p : Proxy) (r : http.Request)
    (s' : string) :
  e _ (providers_NewProvider (provider p) (secret p))
  = e _ (providers_NewProvider (provider p) s') ->
  filter (fun ev => is_NewProvider ev = false) (run e (proxyRequest p r)).1
  = filter (fun ev => is_NewProvider ev = false)
           (run e (proxyRequest (with_secret s' p) r)).1.
Proof.
  intros Hsame.
  rewrite (proxyRequest_trace e (with_secret s' p) r).
  rewrite (proxyRequest_trace e p r). cbn zeta.
  rewrite isPathAllowed_with_secret.
  cbn [with_secret provider secret upstreamURL].
  rewrite <- Hsame.
  destruct (isPathAllowed p _); [|reflexivity].
  destruct (e _ (providers_NewProvider _ _)) as [prov|err]; [|reflexivity].
  destruct (e _ (parser_Parse r prov)) as [hook|err]; [|reflexivity].
  destruct (Validate prov hook); [|reflexivity].
  rewrite redirect_with_secret.
  destruct (run e (redirect p (Some hook) _)) as [calls r3].
  reflexivity.
Qed.

(** X12: the upstream side is reached for authenticated requests only:
    when a run makes any call of [redirect], the path was allowed, the
    provider was constructed, the hook parsed, and the provider validated
    it. *)
Theorem upstream_only_when_validated (e : env) (p : Proxy) (r : http.Request)
    (ev : event) :
  ev ∈ (run e (proxyRequest p r)).1 -> is_redirect_call ev = true ->
  isPathAllowed p (url.Path (http.URL r)) = true
  /\ exists prov hook,
       e _ (providers_NewProvider (provider p) (secret p)) = Ok prov
       /\ e _ (parser_Parse r prov) = Ok hook
       /\ Validate prov hook = true.
Proof.
  assert (Hnone : forall tr : list event,
    forallb (fun ev => negb (is_redirect_call ev)) tr = true ->
    ev ∈ tr -> is_redirect_call ev = true -> False).
  { intros tr Hall Hev Hcall. rewrite forallb_forall in Hall.
    apply list_elem_of_In, Hall in Hev. by rewrite Hcall in Hev. }
  trace_cases e p r; intros Hev Hcall.
  all: try (exfalso; refine (Hnone _ _ Hev Hcall); reflexivity).
  all: split; [done|]; by exists prov, hook.
Qed.

(** X13: what goes upstream is what came in.  In every run the URL parsed
    is the upstream URL followed by the path of the request as received,
    not its normal form; a request is built from the method and payload
    of the hook the parser returned; and the request the proxy's client
    sends has the method, URL and body of the request built. *)
Theorem proxyRequest_forwards_unchanged (e : env) (p : Proxy)
    (r : http.Request) (ev : event) :
  ev ∈ (run e (proxyRequest p r)).1 ->
  (forall rawURL, url_Parse_arg ev = Some rawURL ->
     rawURL = upstreamURL p +:+ url.Path (http.URL r))
  /\ (forall method u body, NewRequest_args ev = Some (method, u, body) ->
        exists prov hook,
          e _ (providers_NewProvider (provider p) (secret p)) = Ok prov
          /\ e _ (parser_Parse r prov) = Ok hook
          /\ method = RequestMethod hook /\ body = Payload hook)
  /\ (forall c sent, Client_Do_args ev = Some (c, sent) ->
        c = httpClient p
        /\ exists method u body built,
             e _ (http_NewRequest method u body) = Ok built
             /\ http.Method sent = http.Method built
             /\ http.URL sent = http.URL built
             /\ http.Body sent = http.Body built).
Proof.
  assert (Hsame : forall (req : http.Request) adds,
    http.Method (add_all req adds) = http.Method req
    /\ http.URL (add_all req adds) = http.URL req
    /\ http.Body (add_all req adds) = http.Body req).
  { intros req adds. unfold add_all. revert req.
    induction adds as [|kv adds IH]; intros req; [done|].
    cbn [foldl]. by destruct (IH (Request_Header_Add req kv.1 kv.2)) as (-> & -> & ->). }
  trace_cases e p r; intros Hev.
  all: repeat (apply elem_of_cons in Hev as [->|Hev]);
    try (by apply elem_of_nil in Hev).
  all: split; [|split].
  all: lazymatch goal with
       | |- forall rawURL, url_Parse_arg _ = _ -> _ =>
         intros rawURL Harg; cbn in Harg;
         first [discriminate | by injection Harg as <-]
       | |- forall method u body, NewRequest_args _ = _ -> _ =>
         intros method u' body Harg; cbn in Harg;
         first [discriminate | injection Harg as <- <- <-; by exists prov, hook]
       | |- forall c sent, Client_Do_args _ = _ -> _ =>
         intros c sent Harg; cbn in Harg;
         first [ discriminate
               | injection Harg as <- <-; split; [done|];
                 eexists _, _, _, req; split; [exact Hreq|apply Hsame] ]
       end.
Qed.

End proxyRequest_more.

(** ** Run and health *)

(** X14: [Run] panics exactly when all runes of the listen address are
    white space, the empty address included; otherwise it registers
    [GET /health] for [health] and [POST /*path] for [proxyRequest], in
    that order, logs the address and listens on it as it was passed, not
    trimmed. *)
Theorem Run_panics_iff_blank (p : Proxy) (listenAddress : string) :
  (Run p listenAddress
   = Run_panics "Cannot create Proxy with empty listenAddress"
   <-> whitespace_only listenAddress)
  /\ (Run p listenAddress
      = Run_serves
          [ {| route_method := "GET"; route_path := "/health";
               route_handle := Proxy_health p |};
            {| route_method := "POST"; route_path := "/*path";
               route_handle := Proxy_proxyRequest p |} ]
          ("Listening at: " +:+ listenAddress) listenAddress
      <-> ~ whitespace_only listenAddress).
Proof.
  unfold Run. rewrite blank_all_space. unfold whitespace_only.
  fold (all_space listenAddress).
  destruct (all_space listenAddress); split; split;
    first [done | discriminate | intros _; reflexivity | congruence | idtac].
Qed.

(** ** White space around a path *)

Lemma slice_app_prefix s u k :
  0 <= k <= len s -> slice (s +:+ u) 0 k = slice s 0 k.
Proof.
  revert k. induction s as [|c s IH]; intros k Hk.
  - rewrite len_empty in Hk. assert (k = 0) as -> by lia.
    by rewrite !slice_0_0.
  - rewrite len_cons in Hk. rewrite app_cons_str.
    destruct (decide (k = 0)) as [->|Hne]; [by rewrite !slice_0_0|].
    replace k with (1 + (k - 1)) by lia.
    rewrite !slice_0_cons by lia. f_equal. apply IH. lia.
Qed.

Lemma asciiSpace_byte c :
  (strings.asciiSpace (byte_val c) =? 0) = false ->
  byte_val c < utf8.RuneSelf /\ unicode.IsSpace (byte_val c) = true.
Proof.
  intros Hsp.
  assert (Hc : byte_val c < utf8.RuneSelf).
  { unfold strings.asciiSpace, utf8.RuneSelf in *.
    destruct (_ || _) eqn:E; [|done]. zbool; lia. }
  split; [done|]. pose proof (byte_val_range c).
  rewrite asciiSpace_IsSpace in Hsp by lia.
  by destruct (unicode.IsSpace _).
Qed.

(** Appending a byte on which [f] holds does not change what the search
    for a rune without [f] finds. *)
Lemma indexFunc_range_app_true f s x i k :
  byte_val x < utf8.RuneSelf -> f (byte_val x) = true ->
  0 <= i -> (k <= String.length s)%nat ->
  strings.indexFunc_range f false (s +:+ String x "") i k
  = strings.indexFunc_range f false s i k.
Proof.
  intros Hx Hf. revert i k. induction s as [|c t IH]; intros i k Hi Hk.
  - cbn in Hk. assert (k = 0%nat) as -> by lia.
    rewrite app_nil_l_str. cbn [strings.indexFunc_range].
    rewrite DecodeRuneInString_ascii by done. by rewrite Hf.
  - rewrite app_cons_str. cbn [strings.indexFunc_range]. cbn in Hk.
    destruct k as [|k].
    + rewrite <- app_cons_str, DecodeRuneInString_app_ascii by done.
      pose proof (DecodeRuneInString_size (String c t) ltac:(done)) as Hsz.
      destruct (utf8.DecodeRuneInString (String c t)) as [r size].
      cbn [snd] in Hsz. rewrite len_cons in Hsz.
      destruct (Bool.eqb (f r) false); [done|].
      apply IH; [lia|]. unfold len in Hsz. lia.
    + apply IH; lia.
Qed.

Lemma TrimLeftFunc_app_true f s x :
  byte_val x < utf8.RuneSelf -> f (byte_val x) = true ->
  strings.TrimLeftFunc (s +:+ String x "") f
  = if strings.indexFunc s f false =? -1 then ""
    else strings.TrimLeftFunc s f +:+ String x "".
Proof.
  intros Hx Hf. unfold strings.TrimLeftFunc, strings.indexFunc.
  rewrite indexFunc_range_app_true by (done || lia).
  destruct (indexFunc_range_bounds f false s 0 0 ltac:(lia)) as [->|Hb]; [done|].
  repeat case_if; try lia.
  rewrite len_app. apply (slice_app_to_end s (String x "")). lia.
Qed.

Lemma lastIndexFunc_loop_app s u f truth fuel i :
  0 <= i <= len s ->
  strings.lastIndexFunc_loop (s +:+ u) f truth fuel i
  = strings.lastIndexFunc_loop s f truth fuel i.
Proof.
  revert i. induction fuel as [|fuel IH]; intros i Hi; [done|].
  cbn [strings.lastIndexFunc_loop]. case_if; [|done].
  rewrite slice_app_prefix by lia.
  assert (Hne : slice s 0 i <> "") by (apply slice_0_nonempty; [|lia];
    intros ->; rewrite len_empty in Hi; lia).
  pose proof (DecodeLastRuneInString_size _ Hne) as Hsz.
  rewrite len_slice_0 in Hsz by lia.
  destruct (utf8.DecodeLastRuneInString (slice s 0 i)) as [r size].
  cbn [snd] in Hsz. destruct (Bool.eqb (f r) truth); [done|].
  apply IH. lia.
Qed.

Lemma TrimRightFunc_app_true f s x :
  byte_val x < utf8.RuneSelf -> f (byte_val x) = true ->
  strings.TrimRightFunc (s +:+ String x "") f = strings.TrimRightFunc s f.
Proof.
  intros Hx Hf. unfold strings.TrimRightFunc, strings.lastIndexFunc.
  rewrite length_app_one. cbn [strings.lastIndexFunc_loop].
  rewrite slice_all, DecodeLastRuneInString_ascii, Hf by done.
  cbn [Bool.eqb]. rewrite len_app. change (len (String x "")) with 1.
  pose proof (len_nonneg s).
  assert ((0 <? len s + 1) = true) as -> by (apply Z.ltb_lt; lia).
  replace (len s + 1 - 1) with (len s) by lia.
  rewrite lastIndexFunc_loop_app by lia.
  destruct (lastIndexFunc_loop_bounds s f false (String.length s) (len s)
              ltac:(lia)) as [Hnone|Hb].
  - rewrite Hnone. cbn. by rewrite !slice_0_0.
  - set (i := strings.lastIndexFunc_loop _ _ _ _ _) in *.
    rewrite idx_app_l by lia.
    assert (Hrest : slice s i (len s) <> "").
    { intros Heq. pose proof (len_slice_to_end s i ltac:(lia)) as Hl.
      rewrite Heq, len_empty in Hl. lia. }
    replace (len s + 1) with (len s + len (String x "")) by done.
    rewrite slice_app_to_end by lia.
    destruct (slice s i (len s)) as [|c t] eqn:Hs; [done|].
    rewrite DecodeRuneInString_app_ascii by done.
    pose proof (DecodeRuneInString_size (String c t) ltac:(done)) as Hsz.
    rewrite <- Hs, len_slice_to_end in Hsz by lia. rewrite <- Hs.
    destruct (utf8.DecodeRuneInString (slice s i (len s))) as [r wid].
    cbn [snd] in Hsz.
    destruct ((0 <=? i) && (utf8.RuneSelf <=? idx s i));
      apply slice_app_prefix; lia.
Qed.

Lemma TrimSpace_stop_app s u n :
  (n <= String.length s)%nat ->
  strings.TrimSpace_stop (s +:+ u) n = strings.TrimSpace_stop s n.
Proof.
  induction n as [|n IH]; intros Hn; cbn [strings.TrimSpace_stop].
  - by rewrite !slice_0_0.
  - rewrite idx_app_l by (unfold len; lia).
    rewrite slice_app_prefix by (unfold len; lia).
    rewrite IH by lia. done.
Qed.

(** A trailing byte of the table [asciiSpace] is trimmed. *)
Lemma TrimSpace_app_space s x :
  (strings.asciiSpace (byte_val x) =? 0) = false ->
  strings.TrimSpace (s +:+ String x "") = strings.TrimSpace s.
Proof.
  intros Hsp. destruct (asciiSpace_byte x Hsp) as [Hx Hf].
  unfold strings.TrimSpace. induction s as [|c t IH].
  - rewrite app_nil_l_str. cbn [strings.TrimSpace_start].
    assert ((utf8.RuneSelf <=? byte_val x) = false) as -> by (apply Z.leb_gt; lia).
    by rewrite Hsp.
  - rewrite app_cons_str. cbn [strings.TrimSpace_start].
    rewrite <- app_cons_str.
    destruct (utf8.RuneSelf <=? byte_val c).
    + unfold strings.TrimFunc. rewrite TrimLeftFunc_app_true by done.
      destruct (strings.indexFunc (String c t) unicode.IsSpace false =? -1)
        eqn:Efound.
      * unfold strings.TrimLeftFunc. by rewrite Efound.
      * by apply TrimRightFunc_app_true.
    + destruct (strings.asciiSpace (byte_val c) =? 0); [|done].
      rewrite length_app_one. cbn [strings.TrimSpace_stop].
      change (Z.of_nat (String.length (String c t))) with (len (String c t)).
      rewrite idx_app_r.
      assert ((utf8.RuneSelf <=? byte_val x) = false) as -> by (apply Z.leb_gt; lia).
      rewrite Hsp. by apply TrimSpace_stop_app.
Qed.

Lemma TrimSpace_ascii_spaces_l w s :
  ascii_spaces w = true -> strings.TrimSpace (w +:+ s) = strings.TrimSpace s.
Proof.
  unfold strings.TrimSpace. induction w as [|c w IH]; [done|].
  cbn [ascii_spaces]. intros [Hc Hw]%andb_true_iff. apply negb_true_iff in Hc.
  destruct (asciiSpace_byte c Hc) as [Hlt _].
  rewrite app_cons_str. cbn [strings.TrimSpace_start].
  assert ((utf8.RuneSelf <=? byte_val c) = false) as -> by (apply Z.leb_gt; lia).
  rewrite Hc. by apply IH.
Qed.

Lemma TrimSpace_ascii_spaces_r w s :
  ascii_spaces w = true -> strings.TrimSpace (s +:+ w) = strings.TrimSpace s.
Proof.
  revert s. induction w as [|c w IH]; intros s.
  - by rewrite app_empty_r_str.
  - cbn [ascii_spaces]. intros [Hc Hw]%andb_true_iff. apply negb_true_iff in Hc.
    change (String c w) with (String c "" +:+ w).
    rewrite <- app_assoc_str, IH by done. by apply TrimSpace_app_space.
Qed.

(** X15: white space of the table [asciiSpace] (space, tab, line feed,
    vertical tab, form feed, carriage return) before and after a path is
    ignored: the padded path is allowed exactly when the path is. *)
Theorem isPathAllowed_ignores_padding (px : Proxy) (w1 w2 path : string) :
  ascii_spaces w1 = true -> ascii_spaces w2 = true ->
  isPathAllowed px (w1 +:+ path +:+ w2) = isPathAllowed px path.
Proof.
  intros H1 H2. unfold isPathAllowed. case_if; [done|].
  apply isPathAllowed_range_normal_form. unfold normalize.
  by rewrite TrimSpace_ascii_spaces_l, TrimSpace_ascii_spaces_r.
Qed.

(** ** The further properties at example values *)

Lemma isPathAllowed_ignores_padding_witness :
  ascii_spaces (" " +:+ String "009"%char "") = true
  /\ ascii_spaces (String "010"%char "") = true
  /\ isPathAllowed (exampleProxy ["/repo1"])
       ((" " +:+ String "009"%char "") +:+ "/repo1/" +:+ String "010"%char "")
     = isPathAllowed (exampleProxy ["/repo1"]) "/repo1/".
Proof.
  assert (H1 : ascii_spaces (" " +:+ String "009"%char "") = true) by reflexivity.
  assert (H2 : ascii_spaces (String "010"%char "") = true) by reflexivity.
  split; [exact H1|]. split; [exact H2|].
  exact (isPathAllowed_ignores_padding (exampleProxy ["/repo1"]) _ _ "/repo1/" H1 H2).
Defined.

Lemma redirect_success_is_the_clients_witness :
  let e := exampleEnv true 200 "200 OK" in
  let resp := {| http.Status := "200 OK"; http.StatusCode := 200 |} in
  (run e (redirect (exampleProxy []) (Some exampleHook) "/repo1")).2 = Ok resp
  /\ exists req,
       filter (fun ev => is_Client_Do ev = true)
              (run e (redirect (exampleProxy []) (Some exampleHook) "/repo1")).1
       = [asked e (Client_Do (httpClient (exampleProxy [])) req)]
       /\ e _ (Client_Do (httpClient (exampleProxy [])) req) = Ok resp.
Proof.
  intros e resp.
  assert (Hok : (run e (redirect (exampleProxy []) (Some exampleHook) "/repo1")).2
                = Ok resp) by reflexivity.
  split; [exact Hok|].
  exact (redirect_success_is_the_clients e (exampleProxy []) (Some exampleHook)
           "/repo1" resp Hok).
Defined.

Lemma redirect_headers_none_lost_witness :
  let e := exampleEnv true 200 "200 OK" in
  let req := {| http.Method := "POST";
                http.URL := exampleURL "http://upstream:8080/repo1";
                http.Header := ∅; http.Body := [Byte.x7b; Byte.x7d] |} in
  e _ (url_Parse (upstreamURL (exampleProxy []) +:+ "/repo1"))
  = Ok (exampleURL "/repo1")
  /\ e _ (http_NewRequest (RequestMethod exampleHook)
            (URL_String (with_default_scheme (exampleURL "/repo1")))
            (Payload exampleHook)) = Ok req
  /\ exists sent,
       last (run e (redirect (exampleProxy []) (Some exampleHook) "/repo1")).1
       = Some (asked e (Client_Do (httpClient (exampleProxy [])) sent))
       /\ "sha1=0a1b" ∈ http.Header sent !!! "X-Hub-Signature".
Proof.
  intros e req.
  assert (Hu : e _ (url_Parse (upstreamURL (exampleProxy []) +:+ "/repo1"))
               = Ok (exampleURL "/repo1")) by reflexivity.
  assert (Hreq : e _ (http_NewRequest (RequestMethod exampleHook)
                        (URL_String (with_default_scheme (exampleURL "/repo1")))
                        (Payload exampleHook)) = Ok req) by reflexivity.
  split; [exact Hu|]. split; [exact Hreq|].
  destruct (redirect_headers_none_lost e (exampleProxy []) exampleHook "/repo1"
              (exampleURL "/repo1") req Hu Hreq)
    as (sent & Hlast & Hkept & _).
  exists sent. split; [exact Hlast|].
  apply (Hkept "X-Hub-Signature" "sha1=0a1b"). reflexivity.
Defined.

Lemma redirect_header_exact_witness :
  let e := exampleEnv true 200 "200 OK" in
  let req := {| http.Method := "POST";
                http.URL := exampleURL "http://upstream:8080/repo1";
                http.Header := ∅; http.Body := [Byte.x7b; Byte.x7d] |} in
  e _ (url_Parse (upstreamURL (exampleProxy []) +:+ "/repo1"))
  = Ok (exampleURL "/repo1")
  /\ e _ (http_NewRequest (RequestMethod exampleHook)
            (URL_String (with_default_scheme (exampleURL "/repo1")))
            (Payload exampleHook)) = Ok req
  /\ Headers exampleHook !! "X-Hub-Signature" = Some "sha1=0a1b"
  /\ exists sent,
       last (run e (redirect (exampleProxy []) (Some exampleHook) "/repo1")).1
       = Some (asked e (Client_Do (httpClient (exampleProxy [])) sent))
       /\ http.Header sent !!! "X-Hub-Signature" = ["sha1=0a1b"].
Proof.
  intros e req.
  assert (Hu : e _ (url_Parse (upstreamURL (exampleProxy []) +:+ "/repo1"))
               = Ok (exampleURL "/repo1")) by reflexivity.
  assert (Hreq : e _ (http_NewRequest (RequestMethod exampleHook)
                        (URL_String (with_default_scheme (exampleURL "/repo1")))
                        (Payload exampleHook)) = Ok req) by reflexivity.
  assert (Hk : Headers exampleHook !! "X-Hub-Signature" = Some "sha1=0a1b")
    by reflexivity.
  split; [exact Hu|]. split; [exact Hreq|]. split; [exact Hk|].
  exact (redirect_header_exact e (exampleProxy []) exampleHook "/repo1"
           (exampleURL "/repo1") req "X-Hub-Signature" "sha1=0a1b" Hu Hreq Hk
           (fun k' _ Hcanon => Hcanon)).
Defined.

Lemma proxyRequest_answers_once_witness :
  let e := exampleEnv false 200 "200 OK" in
  let tr := (run e (proxyRequest (exampleProxy ["/repo1"])
                                 (exampleRequest "/repo1"))).1 in
  (length (filter (fun ev => is_Client_Do ev = true) tr) <= 1)%nat.
Proof.
  intros e tr.
  exact (proj1 (proxyRequest_answers_once e (exampleProxy ["/repo1"])
                  (exampleRequest "/repo1"))).
Defined.

Lemma proxyRequest_logs_twice_witness :
  let e := exampleEnv true 200 "200 OK" in
  exists arrival mid outcome final,
    (run e (proxyRequest (exampleProxy ["/repo1"]) (exampleRequest "/repo1"))).1
    = [asked e (log_Printf arrival)] ++ mid
      ++ [asked e (log_Printf outcome)] ++ final.
Proof.
  intros e.
  destruct (proxyRequest_logs_twice e (exampleProxy ["/repo1"])
              (exampleRequest "/repo1"))
    as (arrival & mid & outcome & final & Htr & _).
  by exists arrival, mid, outcome, final.
Defined.

Lemma proxyRequest_secret_confined_witness :
  let e := exampleEnv true 200 "200 OK" in
  e _ (providers_NewProvider (provider (exampleProxy ["/repo1"]))
         (secret (exampleProxy ["/repo1"])))
  = e _ (providers_NewProvider (provider (exampleProxy ["/repo1"])) "0ther")
  /\ filter (fun ev => is_NewProvider ev = false)
       (run e (proxyRequest (exampleProxy ["/repo1"]) (exampleRequest "/repo1"))).1
     = filter (fun ev => is_NewProvider ev = false)
         (run e (proxyRequest (with_secret "0ther" (exampleProxy ["/repo1"]))
                              (exampleRequest "/repo1"))).1.
Proof.
  intros e.
  assert (Hsame :
    e _ (providers_NewProvider (provider (exampleProxy ["/repo1"]))
           (secret (exampleProxy ["/repo1"])))
    = e _ (providers_NewProvider (provider (exampleProxy ["/repo1"])) "0ther"))
    by reflexivity.
  split; [exact Hsame|].
  exact (proxyRequest_secret_confined e (exampleProxy ["/repo1"])
           (exampleRequest "/repo1") "0ther" Hsame).
Defined.

Lemma upstream_only_when_validated_witness :
  let e := exampleEnv true 200 "200 OK" in
  let p := exampleProxy ["/repo1"] in
  let ev := asked e (url_Parse "//upstream:8080/repo1") in
  ev ∈ (run e (proxyRequest p (exampleRequest "/repo1"))).1
  /\ is_redirect_call ev = true
  /\ isPathAllowed p "/repo1" = true.
Proof.
  intros e p ev.
  assert (Hev : ev ∈ (run e (proxyRequest p (exampleRequest "/repo1"))).1).
  { do 3 (apply elem_of_cons; right). apply elem_of_cons. by left. }
  assert (Hcall : is_redirect_call ev = true) by reflexivity.
  split; [exact Hev|]. split; [exact Hcall|].
  exact (proj1 (upstream_only_when_validated e p (exampleRequest "/repo1") ev
                  Hev Hcall)).
Defined.

Lemma proxyRequest_forwards_unchanged_witness :
  let e := exampleEnv true 200 "200 OK" in
  let p := exampleProxy ["/repo1"] in
  let ev := asked e (url_Parse "//upstream:8080 /repo1/") in
  ev ∈ (run e (proxyRequest p (exampleRequest " /repo1/"))).1
  /\ (forall rawURL, url_Parse_arg ev = Some rawURL ->
        rawURL = upstreamURL p +:+ " /repo1/").
Proof.
  intros e p ev.
  assert (Hev : ev ∈ (run e (proxyRequest p (exampleRequest " /repo1/"))).1).
  { do 3 (apply elem_of_cons; right). apply elem_of_cons. by left. }
  split; [exact Hev|].
  exact (proj1 (proxyRequest_forwards_unchanged e p (exampleRequest " /repo1/")
                  ev Hev)).
Defined.

Example health_fresh_writer (p : Proxy) :
  let w := health p http.newResponseWriter in
  (http.status w, http.written w) = (200, "I'm Healthy and I know it! ;) ").
Proof. reflexivity. Qed.

Example Run_example :
  Run (exampleProxy []) " :8080"
  = Run_serves
      [ {| route_method := "GET"; route_path := "/health";
           route_handle := Proxy_health (exampleProxy []) |};
        {| route_method := "POST"; route_path := "/*path";
           route_handle := Proxy_proxyRequest (exampleProxy []) |} ]
      "Listening at:  :8080" " :8080".
Proof. reflexivity. Qed.
